(** * Cold-Call Lead Manager: the backend's job lifecycle and CRM store

    A shallow embedding of [backend/main.go].  Tables of the SQLite
    database are lists of rows in insertion order, every SQL statement
    the handlers issue is a function on those lists, and whatever the
    Go code receives from outside (generated UUIDs, the clock, errors
    of the store, the scraper's output file) is an explicit argument. *)

From stdpp Require Import base option list strings gmap sorting.
From Stdlib Require Import ZArith Ascii.

Set Default Proof Using "Type".
Set Warnings "-register-all".

(** Go's [time.Time], kept as an instant. *)
Definition Time : Type := Z.

(** * Models ([// --- MODELS ---]) *)

Module Search.
Record t : Type := mk {
  ID : string;
  UserID : Z;
  Keyword : string;
  Status : string;
  LeadsFound : Z;
  CreatedAt : Time }.
End Search.

Module Lead.
Record t : Type := mk {
  ID : string;
  SearchID : string;
  CompanyName : string;
  Phone : string;
  Website : string;
  Email : string;
  PageSpeed : Z }.
End Lead.

Module ScrapedLead.
Record t : Type := mk {
  Title : string;
  Phone : string;
  Website : string;
  Emails : list string }.

(** [var lead ScrapedLead]: the zero value. *)
Definition zero : t := mk "" "" "" [].
End ScrapedLead.

Module CrmLead.
Record t : Type := mk {
  ID : string;
  CompanyName : string;
  Phone : string;
  Website : string;
  Email : string;
  PageSpeed : Z;
  ColumnID : string;
  Notes : string;
  TimesCalled : Z;
  CallBackDate : option Time }.
End CrmLead.

(** * The database ([createTables])

    One record per table row; a column that the schema leaves nullable
    is an [option].  Foreign keys are declared but SQLite does not
    enforce them unless [PRAGMA foreign_keys] is switched on, which
    [initDB] does not do, so they put no condition on a statement. *)

Module SearchesRow.
Record t : Type := mk {
  id : string;
  user_id : Z;
  keyword : string;
  status : string;
  leads_found : option Z;
  created_at : option Time }.

Definition with_status (st : string) (r : t) : t :=
  mk (id r) (user_id r) (keyword r) st (leads_found r) (created_at r).

Definition with_completed (n : Z) (r : t) : t :=
  mk (id r) (user_id r) (keyword r) "Completed" (Some n) (created_at r).
End SearchesRow.

Module LeadsRow.
Record t : Type := mk {
  id : string;
  search_id : string;
  company_name : option string;
  phone : option string;
  website : option string;
  email : option string;
  page_speed : option Z;
  scraped_at : option Time }.
End LeadsRow.

Module CrmLeadsRow.
Record t : Type := mk {
  user_id : Z;
  lead_id : string;
  column_id : string;
  notes : option string;
  times_called : option Z;
  callback_date : option Time;
  company_name : option string;
  phone : option string;
  website : option string;
  email : option string;
  page_speed : option Z }.

Definition with_column (c : string) (r : t) : t :=
  mk (user_id r) (lead_id r) c (notes r) (times_called r) (callback_date r)
     (company_name r) (phone r) (website r) (email r) (page_speed r).

Definition with_details (n : string) (k : Z) (d : option Time) (r : t) : t :=
  mk (user_id r) (lead_id r) (column_id r) (Some n) (Some k) d
     (company_name r) (phone r) (website r) (email r) (page_speed r).
End CrmLeadsRow.

Record DB : Type := mkDB {
  searches : list SearchesRow.t;
  leads : list LeadsRow.t;
  crm_leads : list CrmLeadsRow.t }.

Definition empty_db : DB := mkDB [] [] [].

(** * SQL statements

    Each statement of [main.go] as a function of the tables.  A
    statement that can be refused by a constraint returns [None]
    then. *)

Module Sql.

(** [INSERT INTO searches (id, user_id, keyword, status) VALUES (?, ?, ?, ?)]:
    [leads_found] takes its default 0 and [created_at] the store's
    clock; [id] is the primary key. *)
Definition insert_search (db_now : Time) (id : string) (user_id : Z)
    (keyword status : string) (db : DB) : option DB :=
  if bool_decide (id ∈ SearchesRow.id <$> searches db) then None
  else Some (mkDB
    (searches db ++ [SearchesRow.mk id user_id keyword status (Some 0%Z) (Some db_now)])
    (leads db) (crm_leads db)).

(** [UPDATE searches SET status = ? WHERE id = ?] *)
Definition update_search_status (status id : string) (db : DB) : DB :=
  mkDB
    ((λ r, if bool_decide (SearchesRow.id r = id)
           then SearchesRow.with_status status r else r) <$> searches db)
    (leads db) (crm_leads db).

(** [UPDATE searches SET status = 'Completed', leads_found = ? WHERE id = ?] *)
Definition update_search_completed (n : Z) (id : string) (db : DB) : DB :=
  mkDB
    ((λ r, if bool_decide (SearchesRow.id r = id)
           then SearchesRow.with_completed n r else r) <$> searches db)
    (leads db) (crm_leads db).

(** [SELECT user_id FROM searches WHERE id = ?], read with [QueryRow]:
    the first matching row, [None] for [sql.ErrNoRows]. *)
Definition select_search_owner (id : string) (db : DB) : option Z :=
  SearchesRow.user_id <$>
    head (filter (λ r, SearchesRow.id r = id) (searches db)).

(** [INSERT INTO leads (id, search_id, company_name, phone, website, email)
    VALUES (?, ?, ?, ?, ?, ?)]: [page_speed] stays NULL; [id] is the
    primary key. *)
Definition insert_lead (db_now : Time) (id search_id company_name phone
    website email : string) (db : DB) : option DB :=
  if bool_decide (id ∈ LeadsRow.id <$> leads db) then None
  else Some (mkDB (searches db)
    (leads db ++ [LeadsRow.mk id search_id (Some company_name) (Some phone)
                    (Some website) (Some email) None (Some db_now)])
    (crm_leads db)).

(** [SELECT id, search_id, company_name, phone, website, email, page_speed
    FROM leads WHERE search_id = ?] *)
Definition select_leads (search_id : string) (db : DB) : list LeadsRow.t :=
  filter (λ r, LeadsRow.search_id r = search_id) (leads db).

(** Whether [crm_leads] holds a row with this primary key. *)
Definition crm_key_taken (user_id : Z) (lead_id : string) (db : DB) : bool :=
  bool_decide ((user_id, lead_id) ∈
    (λ r, (CrmLeadsRow.user_id r, CrmLeadsRow.lead_id r)) <$> crm_leads db).

(** [INSERT OR IGNORE INTO crm_leads (user_id, lead_id, column_id,
    company_name, phone, website, email, page_speed)
    VALUES (?, ?, 'tobe-called', ?, ?, ?, ?, ?)]: a row whose key is
    taken is skipped without an error; [notes] and [callback_date]
    stay NULL and [times_called] takes its default 0. *)
Definition insert_or_ignore_crm_lead (user_id : Z) (lead_id company_name
    phone website email : string) (page_speed : Z) (db : DB) : DB :=
  if crm_key_taken user_id lead_id db then db
  else mkDB (searches db) (leads db)
    (crm_leads db ++ [CrmLeadsRow.mk user_id lead_id "tobe-called" None
                        (Some 0%Z) None (Some company_name) (Some phone)
                        (Some website) (Some email) (Some page_speed)]).

(** The [WHERE user_id = ? AND lead_id = ?] of both updates. *)
Definition crm_where (user_id : Z) (lead_id : string) (r : CrmLeadsRow.t) : bool :=
  bool_decide (CrmLeadsRow.user_id r = user_id) &&
  bool_decide (CrmLeadsRow.lead_id r = lead_id).

(** [UPDATE crm_leads SET column_id = ? WHERE user_id = ? AND lead_id = ?] *)
Definition update_crm_column (column_id : string) (user_id : Z)
    (lead_id : string) (db : DB) : DB :=
  mkDB (searches db) (leads db)
    ((λ r, if crm_where user_id lead_id r
           then CrmLeadsRow.with_column column_id r else r) <$> crm_leads db).

(** [UPDATE crm_leads SET notes = ?, times_called = ?, callback_date = ?
    WHERE user_id = ? AND lead_id = ?] *)
Definition update_crm_details (notes : string) (times_called : Z)
    (callback_date : option Time) (user_id : Z) (lead_id : string)
    (db : DB) : DB :=
  mkDB (searches db) (leads db)
    ((λ r, if crm_where user_id lead_id r
           then CrmLeadsRow.with_details notes times_called callback_date r
           else r) <$> crm_leads db).

(** The order in which SQLite hands out the rows of a query that it
    answers from an index or sorts for an [ORDER BY]: sorted by the
    key, rows of equal key in the order of the table.
    [insert_row R x rows] puts [x], which stands before [rows] in the
    table, into the sorted [rows], in front of the first row that it
    may precede. *)
Fixpoint insert_row {A : Type} (R : relation A) `{!∀ x y, Decision (R x y)}
    (x : A) (rows : list A) : list A :=
  match rows with
  | [] => [x]
  | y :: rows' => if decide (R x y) then x :: rows else y :: insert_row R x rows'
  end.

Definition order_by {A : Type} (R : relation A) `{!∀ x y, Decision (R x y)}
    (rows : list A) : list A :=
  foldr (insert_row R) [] rows.

(** The order of the index of [PRIMARY KEY (user_id, lead_id)] among
    the rows of one user: by [lead_id], compared byte by byte. *)
Definition by_lead_id (r1 r2 : CrmLeadsRow.t) : Prop :=
  String.le (CrmLeadsRow.lead_id r1) (CrmLeadsRow.lead_id r2).

#[global] Instance by_lead_id_dec r1 r2 : Decision (by_lead_id r1 r2).
Proof. unfold by_lead_id. apply _. Defined.

(** [SELECT lead_id, ..., callback_date FROM crm_leads WHERE user_id = ?].
    The query has no [ORDER BY]; SQLite answers it from the index of
    the primary key, so the rows of the user come in the order of
    their [lead_id], not in the order in which they were added. *)
Definition select_crm_leads (user_id : Z) (db : DB) : list CrmLeadsRow.t :=
  order_by by_lead_id (filter (λ r, CrmLeadsRow.user_id r = user_id) (crm_leads db)).

End Sql.

(** * The scraper's output as [encoding/json] reads it

    [processScraperOutput] hands the file to [json.NewDecoder] and calls
    [Decode(&lead)] until [io.EOF].  The decoder is Go's library, not
    code of this repository; it is modelled here as it is documented:
    each call scans the next complete JSON value of the stream and
    stores it into the [ScrapedLead]. *)

Module Json.

Inductive value : Type :=
| JNull
| JBool (b : bool)
| JNumber (literal : string)
| JString (s : string)
| JArray (elems : list value)
| JObject (members : list (string * value)).

(** What the successive [Decode] calls find in the file: a value and
    the rest, only white space up to the end ([io.EOF]), or anything
    else (a syntax error, [io.ErrUnexpectedEOF], a failing read). *)
Inductive Input : Type :=
| EOF
| Broken
| Value (v : value) (rest : Input).

Definition byte_is (n : nat) (c : ascii) : bool :=
  Nat.eqb (Ascii.nat_of_ascii c) n.

(** A key names a struct field when [bytes.EqualFold] equates it with
    the field's tag.  Against the four ASCII tags of [ScrapedLead]
    that is: ASCII letters compare without case, U+017F (long s,
    bytes C5 BF) counts as s and U+212A (Kelvin sign, bytes E2 84 AA)
    as k. *)
Definition lower (c : ascii) : ascii :=
  let n := Ascii.nat_of_ascii c in
  if (65 <=? n) && (n <=? 90) then Ascii.ascii_of_nat (n + 32) else c.

Fixpoint fold_name (key : string) : string :=
  match key with
  | EmptyString => EmptyString
  | String c rest =>
    match rest with
    | String c1 rest1 =>
      if byte_is 197 c && byte_is 191 c1 then String "s"%char (fold_name rest1)
      else
        match rest1 with
        | String c2 rest2 =>
          if byte_is 226 c && byte_is 132 c1 && byte_is 170 c2
          then String "k"%char (fold_name rest2)
          else String (lower c) (fold_name rest)
        | EmptyString => String (lower c) (fold_name rest)
        end
    | EmptyString => String (lower c) EmptyString
    end
  end.

(** A JSON value stored into a Go [string]: a JSON string sets it,
    [null] leaves it as it is, anything else is an
    [UnmarshalTypeError]. *)
Definition store_string (v : value) (old : string) : option string :=
  match v with
  | JString s => Some s
  | JNull => Some old
  | _ => None
  end.

(** The elements of a JSON array stored into a [[]string]: element
    [i] of the array is stored into element [i] of the slice, a fresh
    empty string beyond the slice's old length, and the slice ends up
    as long as the array.  (Go re-uses the slice's backing array, so
    when a key occurs three times an element beyond the previous
    length can show an older string; the length and element 0, which
    is all the importer reads, are as here.) *)
Fixpoint store_elems (elems : list value) (old : list string) : option (list string) :=
  match elems with
  | [] => Some []
  | e :: elems' =>
    match store_string e (hd EmptyString old) with
    | None => None
    | Some s =>
      match store_elems elems' (tl old) with
      | None => None
      | Some ss => Some (s :: ss)
      end
    end
  end.

(** A JSON value stored into a [[]string]: an array fills the slice,
    [null] sets the slice to nil (unlike a Go string, which [null]
    leaves as it is), anything else is an [UnmarshalTypeError]. *)
Definition store_strings (v : value) (old : list string) : option (list string) :=
  match v with
  | JArray elems => store_elems elems old
  | JNull => Some []
  | _ => None
  end.

(** One member of a JSON object stored into the struct, by the tags
    [title], [phone], [web_site] and [emails]; a key that names no
    field is skipped. *)
Definition store_member (lead : ScrapedLead.t) (key : string) (v : value)
    : option ScrapedLead.t :=
  let k := fold_name key in
  if bool_decide (k = "title") then
    (λ s, ScrapedLead.mk s (ScrapedLead.Phone lead) (ScrapedLead.Website lead)
            (ScrapedLead.Emails lead)) <$> store_string v (ScrapedLead.Title lead)
  else if bool_decide (k = "phone") then
    (λ s, ScrapedLead.mk (ScrapedLead.Title lead) s (ScrapedLead.Website lead)
            (ScrapedLead.Emails lead)) <$> store_string v (ScrapedLead.Phone lead)
  else if bool_decide (k = "web_site") then
    (λ s, ScrapedLead.mk (ScrapedLead.Title lead) (ScrapedLead.Phone lead) s
            (ScrapedLead.Emails lead)) <$> store_string v (ScrapedLead.Website lead)
  else if bool_decide (k = "emails") then
    (λ ss, ScrapedLead.mk (ScrapedLead.Title lead) (ScrapedLead.Phone lead)
             (ScrapedLead.Website lead) ss) <$> store_strings v (ScrapedLead.Emails lead)
  else Some lead.

Fixpoint store_members (members : list (string * value)) (lead : ScrapedLead.t)
    : option ScrapedLead.t :=
  match members with
  | [] => Some lead
  | (key, v) :: members' =>
    match store_member lead key v with
    | None => None
    | Some lead' => store_members members' lead'
    end
  end.

(** [decoder.Decode(&lead)] on a scanned value, [lead] being a fresh
    [ScrapedLead]: an object fills the struct, [null] leaves it zero,
    and an array, string, number or boolean cannot be stored into a
    struct ([None]: Decode returns an [UnmarshalTypeError]). *)
Definition unmarshal (v : value) : option ScrapedLead.t :=
  match v with
  | JObject members => store_members members ScrapedLead.zero
  | JNull => Some ScrapedLead.zero
  | _ => None
  end.

End Json.

(** * Reading the text of an output file

    The scanner of [json.Decoder] over the bytes of a file, for the
    part of JSON the examples below are written in: printable ASCII and
    the two-character escapes.  A text with a [\u] escape or a byte
    above 127 is outside this reader ([Unmodelled]); it is never taken
    for a syntax error. *)

Module JsonText.
Import Json.

Inductive scan (A : Type) : Type :=
| Scanned (a : A) (rest : string)
| Invalid
| Unmodelled.
Arguments Scanned {A} a rest.
Arguments Invalid {A}.
Arguments Unmodelled {A}.

Definition scan_map {A B : Type} (f : A → B) (r : scan A) : scan B :=
  match r with
  | Scanned a rest => Scanned (f a) rest
  | Invalid => Invalid
  | Unmodelled => Unmodelled
  end.

Definition is_space (c : ascii) : bool :=
  byte_is 32 c || byte_is 9 c || byte_is 13 c || byte_is 10 c.

Definition is_digit (c : ascii) : bool :=
  (48 <=? Ascii.nat_of_ascii c) && (Ascii.nat_of_ascii c <=? 57).

Fixpoint skip_space (s : string) : string :=
  match s with
  | String c rest => if is_space c then skip_space rest else s
  | EmptyString => EmptyString
  end.

(** [lit] read off the front of [s]. *)
Fixpoint scan_literal (lit s : string) : option string :=
  match lit, s with
  | EmptyString, _ => Some s
  | String a lit', String b s' =>
    if bool_decide (a = b) then scan_literal lit' s' else None
  | String _ _, EmptyString => None
  end.

(** The character a backslash escape stands for. *)
Definition unescape (e : ascii) : option ascii :=
  if byte_is 34 e then Some e
  else if byte_is 92 e then Some e
  else if byte_is 47 e then Some e
  else if byte_is 98 e then Some (Ascii.ascii_of_nat 8)
  else if byte_is 102 e then Some (Ascii.ascii_of_nat 12)
  else if byte_is 110 e then Some (Ascii.ascii_of_nat 10)
  else if byte_is 114 e then Some (Ascii.ascii_of_nat 13)
  else if byte_is 116 e then Some (Ascii.ascii_of_nat 9)
  else None.

(** A string from just after its opening quote. *)
Fixpoint scan_string (s : string) : scan string :=
  match s with
  | EmptyString => Invalid
  | String c rest =>
    if byte_is 34 c then Scanned EmptyString rest
    else if byte_is 92 c then
      match rest with
      | EmptyString => Invalid
      | String e rest' =>
        match unescape e with
        | Some c' => scan_map (String c') (scan_string rest')
        | None => if byte_is 117 e then Unmodelled else Invalid
        end
      end
    else if Ascii.nat_of_ascii c <? 32 then Invalid
    else if 128 <=? Ascii.nat_of_ascii c then Unmodelled
    else scan_map (String c) (scan_string rest)
  end.

Fixpoint scan_digits (s : string) : string * string :=
  match s with
  | String c rest =>
    if is_digit c then
      let '(ds, r) := scan_digits rest in (String c ds, r)
    else (EmptyString, s)
  | EmptyString => (EmptyString, EmptyString)
  end.

(** At least one digit. *)
Definition scan_digits1 (s : string) : option (string * string) :=
  match scan_digits s with
  | (EmptyString, _) => None
  | (ds, r) => Some (ds, r)
  end.

(** [0] or a digit 1-9 and more digits. *)
Definition scan_int (s : string) : option (string * string) :=
  match s with
  | String c rest =>
    if byte_is 48 c then Some (String c EmptyString, rest)
    else if is_digit c then
      let '(ds, r) := scan_digits rest in Some (String c ds, r)
    else None
  | EmptyString => None
  end.

Definition scan_frac (s : string) : option (string * string) :=
  match s with
  | String c rest =>
    if byte_is 46 c then
      match scan_digits1 rest with
      | Some (ds, r) => Some (String c ds, r)
      | None => None
      end
    else Some (EmptyString, s)
  | EmptyString => Some (EmptyString, EmptyString)
  end.

Definition scan_sign (s : string) : string * string :=
  match s with
  | String c rest =>
    if byte_is 43 c || byte_is 45 c then (String c EmptyString, rest)
    else (EmptyString, s)
  | EmptyString => (EmptyString, EmptyString)
  end.

Definition scan_exp (s : string) : option (string * string) :=
  match s with
  | String c rest =>
    if byte_is 101 c || byte_is 69 c then
      let '(sign, rest1) := scan_sign rest in
      match scan_digits1 rest1 with
      | Some (ds, r) => Some (String c (sign +:+ ds), r)
      | None => None
      end
    else Some (EmptyString, s)
  | EmptyString => Some (EmptyString, EmptyString)
  end.

(** A number, kept as its literal. *)
Definition scan_number (s : string) : scan string :=
  let '(minus, s0) :=
    match s with
    | String c rest =>
      if byte_is 45 c then (String c EmptyString, rest) else (EmptyString, s)
    | EmptyString => (EmptyString, EmptyString)
    end in
  match scan_int s0 with
  | None => Invalid
  | Some (int, s1) =>
    match scan_frac s1 with
    | None => Invalid
    | Some (frac, s2) =>
      match scan_exp s2 with
      | None => Invalid
      | Some (exp, s3) => Scanned (minus +:+ int +:+ frac +:+ exp) s3
      end
    end
  end.

(** The scanner refuses an array or object nested deeper than this. *)
Definition maxNestingDepth : nat := 100 * 100.

(** One value; [scan_elements] reads an array from its first element
    and [scan_members] an object from its first key.  [fuel] bounds
    the recursion and the length of the text is always enough. *)
Fixpoint scan_value (fuel depth : nat) (s : string) {struct fuel} : scan value :=
  match fuel with
  | O => Unmodelled
  | S fuel' =>
    match skip_space s with
    | EmptyString => Invalid
    | String c rest =>
      if byte_is 123 c then
        if maxNestingDepth <=? depth then Invalid
        else match skip_space rest with
             | EmptyString => Invalid
             | String c' rest' =>
               if byte_is 125 c' then Scanned (JObject []) rest'
               else scan_map JObject (scan_members fuel' (S depth) rest)
             end
      else if byte_is 91 c then
        if maxNestingDepth <=? depth then Invalid
        else match skip_space rest with
             | EmptyString => Invalid
             | String c' rest' =>
               if byte_is 93 c' then Scanned (JArray []) rest'
               else scan_map JArray (scan_elements fuel' (S depth) rest)
             end
      else if byte_is 34 c then scan_map JString (scan_string rest)
      else if byte_is 116 c then
        match scan_literal "rue" rest with
        | Some rest' => Scanned (JBool true) rest'
        | None => Invalid
        end
      else if byte_is 102 c then
        match scan_literal "alse" rest with
        | Some rest' => Scanned (JBool false) rest'
        | None => Invalid
        end
      else if byte_is 110 c then
        match scan_literal "ull" rest with
        | Some rest' => Scanned JNull rest'
        | None => Invalid
        end
      else if byte_is 45 c || is_digit c then
        scan_map JNumber (scan_number (String c rest))
      else Invalid
    end
  end
with scan_elements (fuel depth : nat) (s : string) {struct fuel} : scan (list value) :=
  match fuel with
  | O => Unmodelled
  | S fuel' =>
    match scan_value fuel' depth s with
    | Scanned v rest =>
      match skip_space rest with
      | EmptyString => Invalid
      | String c rest' =>
        if byte_is 44 c then scan_map (cons v) (scan_elements fuel' depth rest')
        else if byte_is 93 c then Scanned [v] rest'
        else Invalid
      end
    | Invalid => Invalid
    | Unmodelled => Unmodelled
    end
  end
with scan_members (fuel depth : nat) (s : string) {struct fuel}
    : scan (list (string * value)) :=
  match fuel with
  | O => Unmodelled
  | S fuel' =>
    match skip_space s with
    | EmptyString => Invalid
    | String q rest =>
      if byte_is 34 q then
        match scan_string rest with
        | Scanned key rest1 =>
          match skip_space rest1 with
          | EmptyString => Invalid
          | String colon rest2 =>
            if byte_is 58 colon then
              match scan_value fuel' depth rest2 with
              | Scanned v rest3 =>
                match skip_space rest3 with
                | EmptyString => Invalid
                | String c rest4 =>
                  if byte_is 44 c
                  then scan_map (cons (key, v)) (scan_members fuel' depth rest4)
                  else if byte_is 125 c then Scanned [(key, v)] rest4
                  else Invalid
                end
              | Invalid => Invalid
              | Unmodelled => Unmodelled
              end
            else Invalid
          end
        | Invalid => Invalid
        | Unmodelled => Unmodelled
        end
      else Invalid
    end
  end.

(** The values of a file one after another, as the calls of [Decode]
    meet them: values may follow each other with or without white
    space between them. *)
Fixpoint scan_input (fuel : nat) (s : string) : option Input :=
  match fuel with
  | O => None
  | S fuel' =>
    match skip_space s with
    | EmptyString => Some EOF
    | String c rest =>
      match scan_value (S (String.length rest)) 0 (String c rest) with
      | Scanned v rest' => Value v <$> scan_input fuel' rest'
      | Invalid => Some Broken
      | Unmodelled => None
      end
    end
  end.

Definition read_file (text : string) : option Input :=
  scan_input (S (String.length text)) text.

(** The examples write a JSON text with ['] where the file has a
    double quote. *)
Fixpoint json_text (s : string) : string :=
  match s with
  | EmptyString => EmptyString
  | String c rest =>
    String (if byte_is 39 c then Ascii.ascii_of_nat 34 else c) (json_text rest)
  end.

End JsonText.

(** * What a call receives from outside

    One [Env] per handler call or background run: the identifiers
    [uuid.New] hands out, the clocks, and for every call into
    [database/sql] whether it returns an error ([Some] of its text). *)

Record Env : Type := mkEnv {
  uuid : nat → string;              (* the successive [uuid.New().String()] *)
  now : Time;                       (* [time.Now()] *)
  db_now : nat → Time;              (* [CURRENT_TIMESTAMP] at the i-th insert *)
  begin_err : option string;        (* [db.Begin], [db.BeginTx] *)
  prepare_err : option string;      (* [tx.Prepare] *)
  stmt_err : nat → option string;   (* the i-th [stmt.Exec] of a loop *)
  exec_err : option string;         (* [db.Exec], [tx.Exec] *)
  query_err : nat → option string;  (* the i-th [db.QueryRow], [db.Query] *)
  rows_err : option string;         (* [rows.Err()] *)
  commit_err : option string;       (* [tx.Commit] *)
  status_err : option string }.     (* the [db.Exec] of [updateSearchStatus] *)

(** A statement run against the store: the store's own error, else the
    error of the primary key [key] when the statement violates it, else
    the new tables. *)
Definition run_stmt (err : option string) (key : string) (stmt : DB → option DB)
    (db : DB) : string + DB :=
  match err with
  | Some msg => inl msg
  | None =>
    match stmt db with
    | None => inl ("UNIQUE constraint failed: " +:+ key)
    | Some db' => inr db'
    end
  end.

(** * HTTP responses *)

Inductive Body : Type :=
| ErrorBody (error : string) (details : option string)
| MessageBody (message : string)
| SearchBody (s : Search.t)
| LeadsBody (ls : list Lead.t)
| CrmBody (leads : gmap string CrmLead.t) (tobe_called contacted : list string)
| CrmLeadBody (l : CrmLead.t).

Record Response : Type := mkResponse { code : Z; body : Body }.

Definition StatusOK : Z := 200.
Definition StatusAccepted : Z := 202.
Definition StatusBadRequest : Z := 400.
Definition StatusForbidden : Z := 403.
Definition StatusInternalServerError : Z := 500.

(** [c.ShouldBindJSON(&input)]: the request body decoded into the
    handler's input, or the error of a body that does not decode. *)
Inductive Bind (A : Type) : Type :=
| BindError (msg : string)
| Bound (a : A).
Arguments BindError {A} msg.
Arguments Bound {A} a.

(** * Scraper logic ([// --- SCRAPER LOGIC ---]) *)

Definition updateSearchStatus (e : Env) (searchID status : string) (db : DB) : DB :=
  match status_err e with
  | Some _ => db
  | None => Sql.update_search_status status searchID db
  end.

(** The decoding loop of [processScraperOutput]: [None] when a
    [Decode] returns an error other than [io.EOF]. *)
Fixpoint decode_loop (input : Json.Input) (scrapedLeads : list ScrapedLead.t)
    : option (list ScrapedLead.t) :=
  match input with
  | Json.EOF => Some scrapedLeads
  | Json.Broken => None
  | Json.Value v rest =>
    match Json.unmarshal v with
    | None => None
    | Some lead => decode_loop rest (scrapedLeads ++ [lead])
    end
  end.

Definition first_email (sl : ScrapedLead.t) : string :=
  match ScrapedLead.Emails sl with
  | [] => ""
  | email :: _ => email
  end.

(** The insert loop, inside the transaction [tx]; [i] counts the
    iterations.  [None] when a [stmt.Exec] fails. *)
Fixpoint insert_loop (e : Env) (searchID : string)
    (scrapedLeads : list ScrapedLead.t) (i : nat) (tx : DB) : option DB :=
  match scrapedLeads with
  | [] => Some tx
  | sl :: rest =>
    let leadID := uuid e i in
    match run_stmt (stmt_err e i) "leads.id"
            (Sql.insert_lead (db_now e i) leadID searchID (ScrapedLead.Title sl)
               (ScrapedLead.Phone sl) (ScrapedLead.Website sl) (first_email sl)) tx with
    | inl _ => None
    | inr tx' => insert_loop e searchID rest (S i) tx'
    end
  end.

(** [file] is [None] when [os.Open] fails.  The transaction works on
    its own copy of the tables, which replaces them at a successful
    [tx.Commit] and is dropped by the deferred [tx.Rollback] on every
    other path; [updateSearchStatus] goes through [db], outside the
    transaction. *)
Definition processScraperOutput (e : Env) (searchID : string)
    (file : option Json.Input) (db : DB) : DB :=
  match file with
  | None => updateSearchStatus e searchID "Failed" db
  | Some input =>
    match decode_loop input [] with
    | None => updateSearchStatus e searchID "Failed" db
    | Some scrapedLeads =>
      match begin_err e with
      | Some _ => updateSearchStatus e searchID "Failed" db
      | None =>
        match prepare_err e with
        | Some _ => updateSearchStatus e searchID "Failed" db
        | None =>
          match insert_loop e searchID scrapedLeads 0 db with
          | None => updateSearchStatus e searchID "Failed" db
          | Some tx =>
            match exec_err e with
            | Some _ => db
            | None =>
              let tx' := Sql.update_search_completed
                           (Z.of_nat (length scrapedLeads)) searchID tx in
              match commit_err e with
              | Some _ => updateSearchStatus e searchID "Failed" db
              | None => tx'
              end
            end
          end
        end
      end
    end
  end.

(** What one run of the external scraper does: errors creating or
    writing the temporary input file, the error of the command, and the
    output file it leaves ([None]: it cannot be opened). *)
Record Run : Type := mkRun {
  create_err : option string;
  write_err : option string;
  command_err : option string;
  output_file : option Json.Input }.

Definition runScraper (e : Env) (r : Run) (search : Search.t) (db : DB) : DB :=
  match create_err r with
  | Some _ => updateSearchStatus e (Search.ID search) "Failed" db
  | None =>
    match write_err r with
    | Some _ => updateSearchStatus e (Search.ID search) "Failed" db
    | None =>
      match command_err r with
      | Some _ => updateSearchStatus e (Search.ID search) "Failed" db
      | None => processScraperOutput e (Search.ID search) (output_file r) db
      end
    end
  end.

(** * Handlers ([// --- HANDLERS ---])

    Every handler below sits behind [authMiddleware]; [userID] is the
    identity that the middleware stored in the context. *)

Definition keyword_required : string :=
  "Key: 'Keyword' Error:Field validation for 'Keyword' failed on the 'required' tag".

(** Returns the response, the tables and the job handed to
    [go runScraper(newSearch)], if any. *)
Definition startSearchHandler (e : Env) (userID : Z) (input : Bind string)
    (db : DB) : Response * DB * option Search.t :=
  match input with
  | BindError msg => (mkResponse StatusBadRequest (ErrorBody msg None), db, None)
  | Bound keyword =>
    if bool_decide (keyword = "") then
      (mkResponse StatusBadRequest (ErrorBody keyword_required None), db, None)
    else
      let searchID := uuid e 0 in
      let newSearch := Search.mk searchID userID keyword "In Progress" 0 (now e) in
      match run_stmt (exec_err e) "searches.id"
              (Sql.insert_search (db_now e 0) (Search.ID newSearch) (Search.UserID newSearch)
                 (Search.Keyword newSearch) (Search.Status newSearch)) db with
      | inl err =>
        (mkResponse StatusInternalServerError
           (ErrorBody "Failed to create search job" (Some err)), db, None)
      | inr db' => (mkResponse StatusAccepted (SearchBody newSearch), db', Some newSearch)
      end
  end.

(** [rows.Scan] of a [leads] row: [company_name] is scanned into a
    plain [string], so a NULL there is a scan error and the row is
    skipped; the other columns go through [sql.NullString] and
    [sql.NullInt64]. *)
Definition scan_lead (r : LeadsRow.t) : option Lead.t :=
  match LeadsRow.company_name r with
  | None => None
  | Some company_name =>
    Some (Lead.mk (LeadsRow.id r) (LeadsRow.search_id r) company_name
            (default "" (LeadsRow.phone r)) (default "" (LeadsRow.website r))
            (default "" (LeadsRow.email r)) (default 0%Z (LeadsRow.page_speed r)))
  end.

Definition access_denied : Response :=
  mkResponse StatusForbidden (ErrorBody "Access denied" None).

Definition getLeadsForSearchHandler (e : Env) (userID : Z) (searchID : string)
    (db : DB) : Response :=
  let owner :=
    match query_err e 0 with
    | Some _ => None
    | None => Sql.select_search_owner searchID db
    end in
  match owner with
  | None => access_denied
  | Some ownerID =>
    if bool_decide (ownerID ≠ userID) then access_denied
    else
      match query_err e 1 with
      | Some _ =>
        mkResponse StatusInternalServerError (ErrorBody "Failed to retrieve leads" None)
      | None =>
        mkResponse StatusOK (LeadsBody (omap scan_lead (Sql.select_leads searchID db)))
      end
  end.

Definition scan_crm_lead (r : CrmLeadsRow.t) : CrmLead.t :=
  CrmLead.mk (CrmLeadsRow.lead_id r)
    (default "" (CrmLeadsRow.company_name r)) (default "" (CrmLeadsRow.phone r))
    (default "" (CrmLeadsRow.website r)) (default "" (CrmLeadsRow.email r))
    (default 0%Z (CrmLeadsRow.page_speed r)) (CrmLeadsRow.column_id r)
    (default "" (CrmLeadsRow.notes r)) (default 0%Z (CrmLeadsRow.times_called r))
    (CrmLeadsRow.callback_date r).

(** One turn of the [rows.Next()] loop of [getCrmHandler] on the two Go
    maps [crmLeads] and [columns]. *)
Definition crm_row_step (acc : gmap string CrmLead.t * gmap string (list string))
    (r : CrmLeadsRow.t) : gmap string CrmLead.t * gmap string (list string) :=
  let cl := scan_crm_lead r in
  (<[CrmLead.ID cl := cl]> acc.1,
   match acc.2 !! CrmLead.ColumnID cl with
   | Some ids => <[CrmLead.ColumnID cl := ids ++ [CrmLead.ID cl]]> acc.2
   | None => acc.2
   end).

Definition getCrmHandler (e : Env) (userID : Z) (db : DB) : Response :=
  match query_err e 0 with
  | Some err =>
    mkResponse StatusInternalServerError (ErrorBody "Failed to fetch CRM data" (Some err))
  | None =>
    let '(crmLeads, columns) :=
      foldl crm_row_step (∅, <["tobe-called" := []]> (<["contacted" := []]> ∅))
        (Sql.select_crm_leads userID db) in
    match rows_err e with
    | Some err =>
      mkResponse StatusInternalServerError
        (ErrorBody "Error during CRM data iteration" (Some err))
    | None =>
      mkResponse StatusOK
        (CrmBody crmLeads (default [] (columns !! "tobe-called"))
           (default [] (columns !! "contacted")))
    end
  end.

(** [stmt.Exec(userID, lead.ID, lead.CompanyName, lead.Phone,
    lead.Website, lead.Email, lead.PageSpeed)] when the store runs it. *)
Definition add_lead (userID : Z) (lead : Lead.t) (tx : DB) : DB :=
  Sql.insert_or_ignore_crm_lead userID (Lead.ID lead) (Lead.CompanyName lead)
    (Lead.Phone lead) (Lead.Website lead) (Lead.Email lead) (Lead.PageSpeed lead) tx.

(** The loop of [addLeadsToCrmHandler] inside its transaction; [None]
    when a [stmt.Exec] fails. *)
Fixpoint add_loop (e : Env) (userID : Z) (leadsToAdd : list Lead.t) (i : nat)
    (tx : DB) : option DB :=
  match leadsToAdd with
  | [] => Some tx
  | lead :: rest =>
    match stmt_err e i with
    | Some _ => None
    | None => add_loop e userID rest (S i) (add_lead userID lead tx)
    end
  end.

(** The result of [tx.Commit()] is not looked at: the response is 200
    whether the transaction was committed or not. *)
Definition addLeadsToCrmHandler (e : Env) (userID : Z) (input : Bind (list Lead.t))
    (db : DB) : Response * DB :=
  match input with
  | BindError _ => (mkResponse StatusBadRequest (ErrorBody "Invalid input" None), db)
  | Bound leadsToAdd =>
    match begin_err e with
    | Some _ =>
      (mkResponse StatusInternalServerError
         (ErrorBody "Failed to start transaction" None), db)
    | None =>
      match prepare_err e with
      | Some _ =>
        (mkResponse StatusInternalServerError
           (ErrorBody "Failed to prepare statement" None), db)
      | None =>
        match add_loop e userID leadsToAdd 0 db with
        | None =>
          (mkResponse StatusInternalServerError
             (ErrorBody "Failed to add lead to CRM" None), db)
        | Some tx =>
          (mkResponse StatusOK (MessageBody "Leads added to CRM successfully"),
           match commit_err e with
           | Some _ => db
           | None => tx
           end)
        end
      end
    end
  end.

(** The input of [updateCrmStateHandler]. *)
Record StateInput : Type := mkStateInput {
  LeadID : string;
  NewColumnID : string }.

Definition updateCrmStateHandler (e : Env) (userID : Z) (input : Bind StateInput)
    (db : DB) : Response * DB :=
  match input with
  | BindError _ => (mkResponse StatusBadRequest (ErrorBody "Invalid input" None), db)
  | Bound input =>
    match exec_err e with
    | Some _ =>
      (mkResponse StatusInternalServerError
         (ErrorBody "Failed to update CRM state" None), db)
    | None =>
      (mkResponse StatusOK (MessageBody "CRM state updated"),
       Sql.update_crm_column (NewColumnID input) userID (LeadID input) db)
    end
  end.

Definition updateCrmLeadHandler (e : Env) (userID : Z) (leadID : string)
    (input : Bind CrmLead.t) (db : DB) : Response * DB :=
  match input with
  | BindError _ => (mkResponse StatusBadRequest (ErrorBody "Invalid input" None), db)
  | Bound updatedLead =>
    match exec_err e with
    | Some err =>
      (mkResponse StatusInternalServerError
         (ErrorBody "Failed to update lead details" (Some err)), db)
    | None =>
      (mkResponse StatusOK (CrmLeadBody updatedLead),
       Sql.update_crm_details (CrmLead.Notes updatedLead)
         (CrmLead.TimesCalled updatedLead) (CrmLead.CallBackDate updatedLead)
         userID leadID db)
    end
  end.

(** * The running system

    The tables together with the jobs whose [go runScraper(newSearch)]
    has been spawned and has not run yet.  A step is one handler call
    or one background run; each of them writes the tables at most once
    (one statement or one committed transaction), so taking it as one
    step loses nothing. *)

Record System : Type := mkSystem {
  store : DB;
  running : list Search.t }.

Definition initial : System := mkSystem empty_db [].

Inductive step : System → System → Prop :=
| step_start db run e userID input resp db' job :
    startSearchHandler e userID input db = (resp, db', job) →
    step (mkSystem db run) (mkSystem db' (run ++ option_list job))
| step_run db run1 search run2 e r :
    step (mkSystem db (run1 ++ search :: run2))
         (mkSystem (runScraper e r search db) (run1 ++ run2))
| step_add db run e userID input :
    step (mkSystem db run) (mkSystem (addLeadsToCrmHandler e userID input db).2 run)
| step_move db run e userID input :
    step (mkSystem db run) (mkSystem (updateCrmStateHandler e userID input db).2 run)
| step_edit db run e userID leadID input :
    step (mkSystem db run)
         (mkSystem (updateCrmLeadHandler e userID leadID input db).2 run).

Definition reachable (sys : System) : Prop := rtc step initial sys.

(** The number of Lead rows that reference a job. *)
Definition count_leads (searchID : string) (db : DB) : nat :=
  length (Sql.select_leads searchID db).

(** The rows a run of [insert_loop] appends, the first one at
    iteration [i]. *)
Fixpoint imported_rows (e : Env) (searchID : string)
    (scrapedLeads : list ScrapedLead.t) (i : nat) : list LeadsRow.t :=
  match scrapedLeads with
  | [] => []
  | sl :: rest =>
    LeadsRow.mk (uuid e i) searchID (Some (ScrapedLead.Title sl))
      (Some (ScrapedLead.Phone sl)) (Some (ScrapedLead.Website sl))
      (Some (first_email sl)) None (Some (db_now e i))
    :: imported_rows e searchID rest (S i)
  end.

(** The three ways a run of the importer can leave the tables:
    untouched, with the job marked Failed, or with one row per decoded
    entry and the job marked Completed. *)
Inductive import_outcome (e : Env) (searchID : string) (file : option Json.Input)
    (db : DB) : DB → Prop :=
| import_untouched : import_outcome e searchID file db db
| import_failed :
    import_outcome e searchID file db (Sql.update_search_status "Failed" searchID db)
| import_completed input scrapedLeads :
    file = Some input →
    decode_loop input [] = Some scrapedLeads →
    import_outcome e searchID file db
      (Sql.update_search_completed (Z.of_nat (length scrapedLeads)) searchID
         (mkDB (searches db) (leads db ++ imported_rows e searchID scrapedLeads 0)
            (crm_leads db))).

(** The rows of [crm_leads] under one primary key. *)
Definition crm_entries (userID : Z) (leadID : string) (db : DB) : list CrmLeadsRow.t :=
  filter (λ r, Sql.crm_where userID leadID r = true) (crm_leads db).

(** A store that returns no error, with [ids] as the generated UUIDs. *)
Definition quiet_env (ids : nat → string) (t : Time) : Env :=
  mkEnv ids t (λ _, t) None None (λ _, None) None (λ _, None) None None None.

(** * Properties of a job and of its rows *)

Definition terminal (r : SearchesRow.t) : Prop :=
  SearchesRow.status r = "Completed" ∨ SearchesRow.status r = "Failed".

(** [leads_found] is the number of Lead rows of the job. *)
Definition count_agrees (db : DB) (r : SearchesRow.t) : Prop :=
  SearchesRow.leads_found r = Some (Z.of_nat (count_leads (SearchesRow.id r) db)).

(** A job without leads: no Lead row and a found-count of zero. *)
Definition no_leads (db : DB) (r : SearchesRow.t) : Prop :=
  count_leads (SearchesRow.id r) db = 0 ∧ SearchesRow.leads_found r = Some 0%Z.

(** Completed exactly when the count agrees, for a terminal job; and a
    Failed job without leads. *)
Definition completed_iff_count (db : DB) (r : SearchesRow.t) : Prop :=
  (terminal r → (SearchesRow.status r = "Completed" ↔ count_agrees db r)) ∧
  (SearchesRow.status r = "Failed" → no_leads db r).

(** A Completed job has the count right and a Failed job has no
    leads. *)
Definition job_consistent (db : DB) (r : SearchesRow.t) : Prop :=
  (SearchesRow.status r = "Completed" → count_agrees db r) ∧
  (SearchesRow.status r = "Failed" → no_leads db r).

(** What holds of the system between any two steps. *)
Record invariant (sys : System) : Prop := mkInvariant {
  inv_completed : ∀ r, r ∈ searches (store sys) →
    SearchesRow.status r = "Completed" → count_agrees (store sys) r;
  inv_others : ∀ r, r ∈ searches (store sys) →
    SearchesRow.status r ≠ "Completed" → no_leads (store sys) r;
  inv_running_row : ∀ s, s ∈ running sys →
    Search.ID s ∈ SearchesRow.id <$> searches (store sys);
  inv_running_status : ∀ s r, s ∈ running sys → r ∈ searches (store sys) →
    SearchesRow.id r = Search.ID s → SearchesRow.status r = "In Progress";
  inv_running_nodup : NoDup (Search.ID <$> running sys);
  inv_leads_job : ∀ l, l ∈ leads (store sys) →
    LeadsRow.search_id l ∈ SearchesRow.id <$> searches (store sys) }.

(** The job a stream of values decodes to, value by value. *)
Fixpoint stream (vs : list Json.value) : Json.Input :=
  match vs with
  | [] => Json.EOF
  | v :: vs' => Json.Value v (stream vs')
  end.

(** ** The frames of the two CRM updates *)

(** The key and the snapshot of contact fields taken when the lead
    was added. *)
Definition same_identity (r r' : CrmLeadsRow.t) : Prop :=
  CrmLeadsRow.user_id r' = CrmLeadsRow.user_id r ∧
  CrmLeadsRow.lead_id r' = CrmLeadsRow.lead_id r ∧
  CrmLeadsRow.company_name r' = CrmLeadsRow.company_name r ∧
  CrmLeadsRow.phone r' = CrmLeadsRow.phone r ∧
  CrmLeadsRow.website r' = CrmLeadsRow.website r ∧
  CrmLeadsRow.email r' = CrmLeadsRow.email r ∧
  CrmLeadsRow.page_speed r' = CrmLeadsRow.page_speed r.

(** [r'] is [r] in every field but the column. *)
Definition same_but_column (r r' : CrmLeadsRow.t) : Prop :=
  same_identity r r' ∧
  CrmLeadsRow.notes r' = CrmLeadsRow.notes r ∧
  CrmLeadsRow.times_called r' = CrmLeadsRow.times_called r ∧
  CrmLeadsRow.callback_date r' = CrmLeadsRow.callback_date r.

(** [r'] is [r] in every field but notes, call count and callback
    date. *)
Definition same_but_details (r r' : CrmLeadsRow.t) : Prop :=
  same_identity r r' ∧ CrmLeadsRow.column_id r' = CrmLeadsRow.column_id r.

(** The row is the entry of this user for this lead. *)
Definition entry_of (userID : Z) (leadID : string) (r : CrmLeadsRow.t) : Prop :=
  CrmLeadsRow.user_id r = userID ∧ CrmLeadsRow.lead_id r = leadID.

(** ** The scenarios of the specification *)

Module Scenario.

Definition job : string := "job-1".

Definition lead_ids (i : nat) : string :=
  "lead-" +:+ String (Ascii.ascii_of_nat (48 + i)) "".

Definition import_env : Env := quiet_env lead_ids 100%Z.

(** The job as [startSearchHandler] leaves it for user 1. *)
Definition started : DB :=
  mkDB [SearchesRow.mk job 1 "plumbers in london" "In Progress" (Some 0%Z) (Some 0%Z)]
    [] [].

Definition acme_array : string :=
  JsonText.json_text
    "[{'title':'Acme','phone':'555','web_site':'acme.com','emails':['a@acme.com']}]".

Definition acme_object : string :=
  JsonText.json_text
    "{'title':'Acme','phone':'555','web_site':'acme.com','emails':['a@acme.com']}".

Definition malformed : string :=
  JsonText.json_text "{'title':'Acme','phone':".

Definition acme : ScrapedLead.t :=
  ScrapedLead.mk "Acme" "555" "acme.com" ["a@acme.com"].

Definition acme_row : LeadsRow.t :=
  LeadsRow.mk "lead-0" job (Some "Acme") (Some "555") (Some "acme.com")
    (Some "a@acme.com") None (Some 100%Z).

Definition start_env : Env := quiet_env (λ _, job) 0%Z.

(** The job handed to [go runScraper(newSearch)]. *)
Definition new_search : Search.t :=
  Search.mk job 1 "plumbers in london" "In Progress" 0 0%Z.

Definition failed_row : SearchesRow.t :=
  SearchesRow.mk job 1 "plumbers in london" "Failed" (Some 0%Z) (Some 0%Z).

Definition completed_row : SearchesRow.t :=
  SearchesRow.mk job 1 "plumbers in london" "Completed" (Some 1%Z) (Some 0%Z).

Definition failed : DB := mkDB [failed_row] [] [].

Definition completed : DB := mkDB [completed_row] [acme_row] [].

(** The imported lead as a client sends it back to add it to the
    CRM, and an entry of user 1 for it that has been worked on. *)
Definition acme_lead : Lead.t :=
  Lead.mk "lead-0" job "Acme" "555" "acme.com" "a@acme.com" 0.

Definition acme_entry : CrmLeadsRow.t :=
  CrmLeadsRow.mk 1 "lead-0" "contacted" (Some "left a message") (Some 2%Z)
    (Some 500%Z) (Some "Acme") (Some "555") (Some "acme.com") (Some "a@acme.com")
    (Some 0%Z).

(** The same lead in the CRM of user 2, untouched since it was
    added. *)
Definition other_entry : CrmLeadsRow.t :=
  CrmLeadsRow.mk 2 "lead-0" "tobe-called" None (Some 0%Z) None (Some "Acme")
    (Some "555") (Some "acme.com") (Some "a@acme.com") (Some 0%Z).

Definition crm : DB := mkDB [completed_row] [acme_row] [acme_entry; other_entry].

(** The payload of a field update. *)
Definition edited : CrmLead.t :=
  CrmLead.mk "lead-0" "" "" "" "" 0 "" "call again on Monday" 3 (Some 900%Z).

(** The three texts as the decoder scans them. *)
Definition acme_value : Json.value :=
  Json.JObject
    [("title", Json.JString "Acme"); ("phone", Json.JString "555");
     ("web_site", Json.JString "acme.com");
     ("emails", Json.JArray [Json.JString "a@acme.com"])].

Definition acme_array_input : Json.Input :=
  Json.Value (Json.JArray [acme_value]) Json.EOF.

Definition acme_object_input : Json.Input :=
  Json.Value acme_value Json.EOF.

(** A run of the scraper that exits with success and leaves a file
    that scans as [input]. *)
Definition run_with (input : Json.Input) : Run :=
  mkRun None None None (Some input).

End Scenario.

(** * The rest of [main.go]

    The handlers and helpers that the job lifecycle and the CRM store
    do not need: the list of a user's jobs, the accounts and the
    credential check. *)

(** A response whose success payload is an [A]:
    [c.JSON(code, gin.H{"error": error})] or [c.JSON(code, payload)]. *)
Inductive Reply (A : Type) : Type :=
| ReplyError (code : Z) (error : string)
| ReplyOK (code : Z) (payload : A).
Arguments ReplyError {A} code error.
Arguments ReplyOK {A} code payload.

Definition StatusCreated : Z := 201.
Definition StatusUnauthorized : Z := 401.
Definition StatusConflict : Z := 409.

(** ** The list of a user's jobs *)

(** [ORDER BY created_at DESC] lets [r1] stand before [r2] when [r1]
    is not older; NULL is the smallest value of a column. *)
Definition not_older (r1 r2 : SearchesRow.t) : Prop :=
  match SearchesRow.created_at r2, SearchesRow.created_at r1 with
  | None, _ => True
  | Some _, None => False
  | Some t2, Some t1 => (t2 ≤ t1)%Z
  end.

#[global] Instance not_older_dec r1 r2 : Decision (not_older r1 r2).
Proof.
  unfold not_older.
  destruct (SearchesRow.created_at r2), (SearchesRow.created_at r1); apply _.
Defined.





(** The entry that [INSERT OR IGNORE] writes for a lead that has
    none. *)
Definition new_entry (userID : Z) (lead : Lead.t) : CrmLeadsRow.t :=
  CrmLeadsRow.mk userID (Lead.ID lead) "tobe-called" None (Some 0%Z) None
    (Some (Lead.CompanyName lead)) (Some (Lead.Phone lead)) (Some (Lead.Website lead))
    (Some (Lead.Email lead)) (Some (Lead.PageSpeed lead)).

(** The lead ids that the board lists under a column: those of the
    rows that stand in it, in the order of the rows. *)
Definition column_ids (column : string) (rows : list CrmLeadsRow.t) : list string :=
  CrmLeadsRow.lead_id <$> filter (λ r, CrmLeadsRow.column_id r = column) rows.

(** The lead ids of the entries of a user that stand in a column, as
    the table holds them. *)
Definition column_entries (userID : Z) (column : string) (db : DB) : list string :=
  CrmLeadsRow.lead_id <$>
    filter (λ r, CrmLeadsRow.column_id r = column ∧ CrmLeadsRow.user_id r = userID)
      (crm_leads db).

(** The [leads] object of the board: under each lead id the last row
    that has it. *)
Definition board_leads (rows : list CrmLeadsRow.t) : gmap string CrmLead.t :=
  list_to_map (reverse ((λ r, (CrmLeadsRow.lead_id r, scan_crm_lead r)) <$> rows)).

(** The primary keys of the three tables. *)
Definition search_ids (db : DB) : list string := SearchesRow.id <$> searches db.
Definition lead_ids (db : DB) : list string := LeadsRow.id <$> leads db.
Definition crm_keys (db : DB) : list (Z * string) :=
  (λ r, (CrmLeadsRow.user_id r, CrmLeadsRow.lead_id r)) <$> crm_leads db.

(** A job row keeps everything but its status and found-count. *)
Definition same_job (r r' : SearchesRow.t) : Prop :=
  SearchesRow.id r' = SearchesRow.id r ∧
  SearchesRow.user_id r' = SearchesRow.user_id r ∧
  SearchesRow.keyword r' = SearchesRow.keyword r ∧
  SearchesRow.created_at r' = SearchesRow.created_at r.

(** ** Accounts ([// --- AUTHENTICATION ---], [registerHandler],
    [loginHandler]) *)

Module UsersRow.
Record t : Type := mk {
  id : Z;
  name : string;
  email : string;
  password_hash : string }.
End UsersRow.

Module RegisterInput.
Record t : Type := mk {
  Name : string;
  Email : string;
  Password : string }.
End RegisterInput.

Module LoginInput.
Record t : Type := mk {
  Email : string;
  Password : string }.
End LoginInput.

(** The payload of a successful registration or login:
    [gin.H{"token": token, "user": gin.H{"id": ..., "name": ..., "email": ...}}]. *)
Record Session : Type := mkSession {
  session_token : string;
  session_id : Z;
  session_name : string;
  session_email : string }.

(** The two libraries behind the authentication helpers, [bcrypt] and
    [jwt], are not code of this repository and are taken as they
    come:
    - [GenerateFromPassword password cost salt] is the hash, or [None]
      when the library returns an error; [salt] is the randomness it
      draws;
    - [CompareHashAndPassword hash password] is whether the library
      returns no error;
    - [SignedString user_id exp] is the token signed with [JWT_SECRET]
      for these two claims (the empty string comes with an error, which
      both handlers drop);
    - [ParseToken token now] is the outcome of [jwt.Parse] with the key
      function of [authMiddleware] at time [now]: [None] when it
      returns an error or a token that is not valid, else the
      [user_id] claim converted by [int64(...)], [Some None] when the
      claim is missing or is no number. *)
Class Crypto : Type := {
  GenerateFromPassword : string → Z → string → option string;
  CompareHashAndPassword : string → string → bool;
  SignedString : Z → Z → string;
  ParseToken : string → Time → option (option Z) }.

(** [Time] counts nanoseconds since the Unix epoch. *)
Definition Second : Z := 1000000000.
Definition Hour : Z := 3600 * Second.
Definition Unix (t : Time) : Z := (t / Second)%Z.

Definition hashPassword `{Crypto} (salt password : string) : option string :=
  GenerateFromPassword password 14 salt.

Definition checkPasswordHash `{Crypto} (password hash : string) : bool :=
  CompareHashAndPassword hash password.

Definition generateJWT `{Crypto} (now : Time) (userID : Z) : string :=
  SignedString userID (Unix (now + 72 * Hour)%Z).

(** [strings.TrimPrefix]. *)
Definition TrimPrefix (s prefix : string) : string :=
  if String.prefix prefix s
  then String.substring (String.length prefix) (String.length s - String.length prefix) s
  else s.

(** What [authMiddleware] does with a request: it aborts with a
    response, or stores the user id in the context and goes on to the
    handler. *)
Definition authMiddleware `{Crypto} (now : Time) (authHeader : string) : Reply Z :=
  if bool_decide (authHeader = "") then
    ReplyError StatusUnauthorized "Authorization header required"
  else
    let tokenString := TrimPrefix authHeader "Bearer " in
    match ParseToken tokenString now with
    | None => ReplyError StatusUnauthorized "Invalid token"
    | Some None => ReplyError StatusUnauthorized "Invalid user ID in token"
    | Some (Some userID) => ReplyOK StatusOK userID
    end.

(** [strings.Contains]. *)
Fixpoint Contains (s substr : string) : bool :=
  String.prefix substr s ||
  match s with
  | EmptyString => false
  | String _ s' => Contains s' substr
  end.

(** The error of gin's validator for the fields tagged
    [binding:"required"] that are empty, one line per field. *)
Definition required_tag (ns field : string) : string :=
  "Key: '" +:+ ns +:+ field +:+ "' Error:Field validation for '" +:+ field +:+
  "' failed on the 'required' tag".

Definition validate_required (ns : string) (fields : list (string * string))
    : option string :=
  match filter (λ f, f.2 = "") fields with
  | [] => None
  | missing =>
    Some (String.concat (String (Ascii.ascii_of_nat 10) "")
            ((λ f, required_tag ns f.1) <$> missing))
  end.

Definition MaxInt64 : Z := 9223372036854775807.

(** The id that [AUTOINCREMENT] gives the next row: one more than the
    largest id the table has held.  No statement of [main.go] deletes a
    user, so that is the largest id in the table. *)
Definition next_user_id (users : list UsersRow.t) : Z :=
  (1 + foldr Z.max 0 (UsersRow.id <$> users))%Z.

(** [INSERT INTO users (name, email, password_hash) VALUES (?, ?, ?)]
    with [res.LastInsertId()]: the table is full once the largest id
    has been used, and [email] is UNIQUE. *)
Definition insert_user (name email password_hash : string) (users : list UsersRow.t)
    : string + Z * list UsersRow.t :=
  if bool_decide (MaxInt64 < next_user_id users)%Z then
    inl "database or disk is full"
  else if bool_decide (email ∈ UsersRow.email <$> users) then
    inl "UNIQUE constraint failed: users.email"
  else
    inr (next_user_id users,
         users ++ [UsersRow.mk (next_user_id users) name email password_hash]).

(** [SELECT id, name, email, password_hash FROM users WHERE email = ?]
    read with [QueryRow]. *)
Definition select_user (email : string) (users : list UsersRow.t) : option UsersRow.t :=
  head (filter (λ r, UsersRow.email r = email) users).

(** [salt] is the randomness that [bcrypt] draws for this call. *)
Definition registerHandler `{Crypto} (e : Env) (salt : string)
    (input : Bind RegisterInput.t) (users : list UsersRow.t)
    : Reply Session * list UsersRow.t :=
  match input with
  | BindError msg => (ReplyError StatusBadRequest msg, users)
  | Bound input =>
    match validate_required "RegisterInput."
            [("Name", RegisterInput.Name input); ("Email", RegisterInput.Email input);
             ("Password", RegisterInput.Password input)] with
    | Some msg => (ReplyError StatusBadRequest msg, users)
    | None =>
      match hashPassword salt (RegisterInput.Password input) with
      | None => (ReplyError StatusInternalServerError "Failed to hash password", users)
      | Some hashedPassword =>
        match match exec_err e with
              | Some msg => inl msg
              | None => insert_user (RegisterInput.Name input) (RegisterInput.Email input)
                          hashedPassword users
              end with
        | inl err =>
          if Contains err "UNIQUE constraint failed" then
            (ReplyError StatusConflict "User with this email already exists", users)
          else (ReplyError StatusInternalServerError "Failed to create user", users)
        | inr (userID, users') =>
          (ReplyOK StatusCreated
             (mkSession (generateJWT (now e) userID) userID (RegisterInput.Name input)
                (RegisterInput.Email input)), users')
        end
      end
    end
  end.

Definition invalid_credentials : Reply Session :=
  ReplyError StatusUnauthorized "Invalid credentials".

Definition loginHandler `{Crypto} (e : Env) (input : Bind LoginInput.t)
    (users : list UsersRow.t) : Reply Session :=
  match input with
  | BindError msg => ReplyError StatusBadRequest msg
  | Bound input =>
    match validate_required "LoginInput."
            [("Email", LoginInput.Email input); ("Password", LoginInput.Password input)] with
    | Some msg => ReplyError StatusBadRequest msg
    | None =>
      match match query_err e 0 with
            | Some _ => None
            | None => select_user (LoginInput.Email input) users
            end with
      | None => invalid_credentials
      | Some user =>
        if checkPasswordHash (LoginInput.Password input) (UsersRow.password_hash user)
        then
          ReplyOK StatusOK
            (mkSession (generateJWT (now e) (UsersRow.id user)) (UsersRow.id user)
               (UsersRow.name user) (UsersRow.email user))
        else invalid_credentials
      end
    end
  end.

(** ** Examples for the handlers above *)

Module Example.

(** A stand-in for the two libraries, to run the handlers on. *)
#[local] Instance crypto : Crypto := {|
  GenerateFromPassword password cost salt := Some ("hash of " +:+ password);
  CompareHashAndPassword hash password :=
    bool_decide (hash = "hash of " +:+ password);
  SignedString user_id exp := "token";
  ParseToken token now :=
    if bool_decide (token = "token") then Some (Some 1%Z) else None |}.

Definition alice : RegisterInput.t := RegisterInput.mk "alice" "alice@x.com" "pw123".

Definition alice_row : UsersRow.t :=
  UsersRow.mk 1 "alice" "alice@x.com" "hash of pw123".

Definition alice_login : LoginInput.t := LoginInput.mk "alice@x.com" "pw123".

(** A second lead of the imported job and the entry of user 1 for it. *)
Definition bolt_lead : Lead.t := Lead.mk "lead-1" Scenario.job "Bolt" "556" "bolt.io" "" 0.

(** The store refuses the statements of the loop from the second
    on. *)
Definition second_fails : Env :=
  mkEnv (λ _, Scenario.job) 0%Z (λ _, 0%Z) None None
    (λ i, if bool_decide (i = 0) then None else Some "disk I/O error") None (λ _, None)
    None None None.

(** The store refuses [tx.Exec] and [tx.Commit]. *)
Definition exec_fails : Env :=
  mkEnv Scenario.lead_ids 100%Z (λ _, 100%Z) None None (λ _, None)
    (Some "disk I/O error") (λ _, None) None None None.

Definition commit_fails : Env :=
  mkEnv Scenario.lead_ids 100%Z (λ _, 100%Z) None None (λ _, None) None (λ _, None)
    None (Some "disk I/O error") None.


(** A CRM to which user 1 added three leads, the one with the
    greatest id first, and moved one of them; user 2 has an entry of
    its own. *)
Definition entry (userID : Z) (leadID column : string) : CrmLeadsRow.t :=
  CrmLeadsRow.mk userID leadID column None (Some 0%Z) None (Some "Acme") (Some "555")
    (Some "acme.com") (Some "a@acme.com") (Some 0%Z).

Definition board : DB :=
  mkDB [] []
    [entry 1 "zeta" "tobe-called"; entry 2 "beta" "tobe-called";
     entry 1 "alpha" "tobe-called"; entry 1 "mid" "contacted"].

End Example.

(** * The order of the rows of a query *)

Section RowOrder.
Context {A : Type} (R : relation A) `{!∀ x y, Decision (R x y)}.

Lemma insert_row_Permutation x rows : Sql.insert_row R x rows ≡ₚ x :: rows.
Proof.
  induction rows as [|y rows IH]; simpl; [done|].
  case_decide; [done|]. by rewrite IH, Permutation_swap.
Qed.

Lemma order_by_Permutation rows : Sql.order_by R rows ≡ₚ rows.
Proof.
  induction rows as [|x rows IH]; simpl; [done|].
  by rewrite insert_row_Permutation, IH.
Qed.

Lemma elem_of_order_by x rows : x ∈ Sql.order_by R rows ↔ x ∈ rows.
Proof. by rewrite order_by_Permutation. Qed.

Lemma insert_row_sorted `{!Total R, !Transitive R} x rows :
  StronglySorted R rows → StronglySorted R (Sql.insert_row R x rows).
Proof.
  induction 1 as [|y rows Hsorted IH Hall]; simpl.
  - repeat constructor.
  - case_decide as Hxy.
    + constructor; [by constructor|]. constructor; [done|].
      eapply Forall_impl; [done|]. intros z Hyz. by trans y.
    + constructor; [done|]. rewrite insert_row_Permutation. constructor; [|done].
      by destruct (total R x y).
Qed.

Lemma order_by_sorted `{!Total R, !Transitive R} rows :
  StronglySorted R (Sql.order_by R rows).
Proof.
  induction rows as [|x rows IH]; simpl; [constructor|]. by apply insert_row_sorted.
Qed.

Lemma order_by_cons x rows :
  Sql.order_by R (x :: rows) = Sql.insert_row R x (Sql.order_by R rows).
Proof. done. Qed.

Lemma insert_row_fmap (f : A → A) x rows :
  (∀ x y, R (f x) (f y) ↔ R x y) →
  Sql.insert_row R (f x) (f <$> rows) = f <$> Sql.insert_row R x rows.
Proof.
  intros Hf. induction rows as [|y rows IH]; [done|].
  rewrite fmap_cons. simpl. destruct (decide (R x y)) as [Hxy|Hxy].
  - by rewrite decide_True by by apply Hf.
  - rewrite decide_False by by rewrite Hf. by rewrite IH.
Qed.

(** Rows that are rewritten without a change of their keys come back
    in the same order. *)
Lemma order_by_fmap (f : A → A) rows :
  (∀ x y, R (f x) (f y) ↔ R x y) →
  Sql.order_by R (f <$> rows) = f <$> Sql.order_by R rows.
Proof.
  intros Hf. induction rows as [|x rows IH]; [done|].
  by rewrite fmap_cons, !order_by_cons, IH, insert_row_fmap.
Qed.

End RowOrder.

#[local] Instance by_lead_id_total : Total Sql.by_lead_id.
Proof. intros r1 r2. unfold Sql.by_lead_id. apply (total String.le). Qed.

#[local] Instance by_lead_id_trans : Transitive Sql.by_lead_id.
Proof. intros r1 r2 r3. unfold Sql.by_lead_id. apply transitivity. Qed.

Lemma select_crm_leads_Permutation userID db :
  Sql.select_crm_leads userID db ≡ₚ
  filter (λ r, CrmLeadsRow.user_id r = userID) (crm_leads db).
Proof. apply order_by_Permutation. Qed.

Lemma elem_of_select_crm_leads r userID db :
  r ∈ Sql.select_crm_leads userID db ↔
  CrmLeadsRow.user_id r = userID ∧ r ∈ crm_leads db.
Proof. by rewrite select_crm_leads_Permutation, list_elem_of_filter. Qed.

(** * Lemmas on the statements and on the import *)

Section ImportRun.
Context (e : Env) (searchID : string).

Lemma updateSearchStatus_cases status db :
  updateSearchStatus e searchID status db = db ∨
  updateSearchStatus e searchID status db = Sql.update_search_status status searchID db.
Proof. unfold updateSearchStatus. destruct (status_err e); auto. Qed.

Lemma insert_loop_rows scrapedLeads : ∀ i tx tx',
  insert_loop e searchID scrapedLeads i tx = Some tx' →
  tx' = mkDB (searches tx) (leads tx ++ imported_rows e searchID scrapedLeads i)
          (crm_leads tx).
Proof.
  induction scrapedLeads as [|sl rest IH]; intros i tx tx' Hloop; simpl in *.
  - injection Hloop as <-. rewrite app_nil_r. by destruct tx.
  - unfold run_stmt, Sql.insert_lead in Hloop.
    destruct (stmt_err e i); [done|].
    case_bool_decide; [done|].
    apply IH in Hloop. simpl in Hloop. by rewrite <- app_assoc in Hloop.
Qed.

Lemma imported_rows_length scrapedLeads i :
  length (imported_rows e searchID scrapedLeads i) = length scrapedLeads.
Proof. revert i. induction scrapedLeads; intros; simpl; auto. Qed.

Lemma imported_rows_job scrapedLeads i l :
  l ∈ imported_rows e searchID scrapedLeads i → LeadsRow.search_id l = searchID.
Proof.
  revert i. induction scrapedLeads as [|sl rest IH]; intros i; simpl.
  - by intros ?%elem_of_nil.
  - intros [->|?]%elem_of_cons; [done|eauto].
Qed.

Lemma imported_rows_filter scrapedLeads i k :
  filter (λ r, LeadsRow.search_id r = k) (imported_rows e searchID scrapedLeads i) =
  if bool_decide (searchID = k) then imported_rows e searchID scrapedLeads i else [].
Proof.
  revert i. induction scrapedLeads as [|sl rest IH]; intros i; simpl.
  - by case_bool_decide.
  - rewrite filter_cons. simpl. rewrite IH.
    case_bool_decide; by case_decide.
Qed.

Lemma updateSearchStatus_outcome file db :
  import_outcome e searchID file db (updateSearchStatus e searchID "Failed" db).
Proof.
  destruct (updateSearchStatus_cases "Failed" db) as [-> | ->]; constructor.
Qed.

Lemma processScraperOutput_outcome file db :
  import_outcome e searchID file db (processScraperOutput e searchID file db).
Proof.
  unfold processScraperOutput.
  destruct file as [input|]; [|apply updateSearchStatus_outcome].
  destruct (decode_loop input []) as [scrapedLeads|] eqn:Hdec;
    [|apply updateSearchStatus_outcome].
  destruct (begin_err e); [apply updateSearchStatus_outcome|].
  destruct (prepare_err e); [apply updateSearchStatus_outcome|].
  destruct (insert_loop e searchID scrapedLeads 0 db) as [tx|] eqn:Hloop;
    [|apply updateSearchStatus_outcome].
  destruct (exec_err e); [constructor|].
  destruct (commit_err e); [apply updateSearchStatus_outcome|].
  apply insert_loop_rows in Hloop as ->. by econstructor.
Qed.

End ImportRun.

Lemma runScraper_outcome e r search db :
  import_outcome e (Search.ID search) (output_file r) db (runScraper e r search db).
Proof.
  unfold runScraper.
  destruct (create_err r); [apply updateSearchStatus_outcome|].
  destruct (write_err r); [apply updateSearchStatus_outcome|].
  destruct (command_err r); [apply updateSearchStatus_outcome|].
  apply processScraperOutput_outcome.
Qed.

(** * The invariant of the running system *)

Lemma filter_none {A : Type} (P : A → Prop) `{!∀ x, Decision (P x)} (l : list A) :
  (∀ x, x ∈ l → ¬ P x) → filter P l = [].
Proof.
  intros Hl. destruct (filter P l) as [|x l'] eqn:Hf; [done|].
  assert (Hx : x ∈ filter P l) by (rewrite Hf; left).
  apply list_elem_of_filter in Hx as [HP Hx]. by destruct (Hl x Hx).
Qed.

Lemma count_leads_leads k db db' :
  leads db' = leads db → count_leads k db' = count_leads k db.
Proof. unfold count_leads, Sql.select_leads. by intros ->. Qed.

Lemma count_leads_imported e searchID scrapedLeads k s l c :
  count_leads k (mkDB s (l ++ imported_rows e searchID scrapedLeads 0) c) =
  count_leads k (mkDB s l c) +
  (if bool_decide (searchID = k) then length scrapedLeads else 0).
Proof.
  unfold count_leads, Sql.select_leads. simpl.
  rewrite filter_app, length_app, imported_rows_filter.
  case_bool_decide; [by rewrite imported_rows_length|done].
Qed.

Lemma ids_fmap (f : SearchesRow.t → SearchesRow.t) (l : list SearchesRow.t) :
  (∀ r, SearchesRow.id (f r) = SearchesRow.id r) →
  SearchesRow.id <$> (f <$> l) = SearchesRow.id <$> l.
Proof.
  intros Hf. rewrite <- list_fmap_compose. apply list_fmap_ext.
  intros i r _. apply Hf.
Qed.

Lemma no_lead_of_unknown_job sys k :
  invariant sys → k ∉ SearchesRow.id <$> searches (store sys) →
  count_leads k (store sys) = 0.
Proof.
  intros Hinv Hk. unfold count_leads, Sql.select_leads.
  apply length_zero_iff_nil, filter_none.
  intros l Hl <-. by apply Hk, (inv_leads_job _ Hinv).
Qed.

Lemma running_without s run1 run2 s' :
  NoDup (Search.ID <$> (run1 ++ s :: run2)) → s' ∈ run1 ++ run2 →
  s' ∈ run1 ++ s :: run2 ∧ Search.ID s' ≠ Search.ID s.
Proof.
  rewrite fmap_app, fmap_cons. intros Hnd Hs'.
  apply NoDup_app in Hnd as (_ & Hdisj & [Hs2 _]%NoDup_cons).
  split.
  { apply elem_of_app in Hs' as [H1|H2]; apply elem_of_app; [by left|].
    right. by apply elem_of_cons; right. }
  intros Heq. apply elem_of_app in Hs' as [H1|H2].
  - apply (Hdisj (Search.ID s')); [by apply list_elem_of_fmap_2|].
    rewrite Heq. apply elem_of_cons. by left.
  - apply Hs2. rewrite <- Heq. by apply list_elem_of_fmap_2.
Qed.

Lemma running_without_nodup s run1 run2 :
  NoDup (Search.ID <$> (run1 ++ s :: run2)) → NoDup (Search.ID <$> (run1 ++ run2)).
Proof.
  rewrite !fmap_app, fmap_cons. intros Hnd.
  apply NoDup_app in Hnd as (Hn1 & Hdisj & [_ Hn2]%NoDup_cons).
  apply NoDup_app. split_and!; [done| |done].
  intros x Hx1 Hx2. apply (Hdisj x Hx1). apply elem_of_cons. by right.
Qed.

Lemma invariant_start e userID input db run resp db' job :
  invariant (mkSystem db run) →
  startSearchHandler e userID input db = (resp, db', job) →
  invariant (mkSystem db' (run ++ option_list job)).
Proof.
  intros Hinv Hstart.
  assert (Hsame : invariant (mkSystem db (run ++ []))) by by rewrite app_nil_r.
  unfold startSearchHandler in Hstart.
  destruct input as [msg|keyword]; [by simplify_eq|].
  case_bool_decide; [by simplify_eq|].
  unfold run_stmt, Sql.insert_search in Hstart. simpl in Hstart.
  destruct (exec_err e); [by simplify_eq|].
  case_bool_decide as Hfresh; [by simplify_eq|].
  simplify_eq. clear Hsame. simpl.
  set (row := SearchesRow.mk (uuid e 0) userID keyword "In Progress" (Some 0%Z)
                (Some (db_now e 0))).
  set (newSearch := Search.mk (uuid e 0) userID keyword "In Progress" 0 (now e)).
  destruct Hinv as [Hc Ho Hrr Hrs Hnd Hlj]. simpl in *.
  split; simpl.
  - intros r [Hr| ->%list_elem_of_singleton]%elem_of_app Hst; [|done].
    unfold count_agrees. rewrite (count_leads_leads _ db) by done. by apply Hc.
  - intros r [Hr| ->%list_elem_of_singleton]%elem_of_app Hst.
    + unfold no_leads. rewrite (count_leads_leads _ db) by done. by apply Ho.
    + split; [|done]. rewrite (count_leads_leads _ db) by done.
      apply (no_lead_of_unknown_job (mkSystem db run)); [by split|done].
  - intros s [Hs| ->%list_elem_of_singleton]%elem_of_app; rewrite fmap_app;
      apply elem_of_app; [left; by apply Hrr|right; simpl; apply elem_of_cons; by left].
  - intros s r [Hs| ->%list_elem_of_singleton]%elem_of_app
             [Hr| ->%list_elem_of_singleton]%elem_of_app Hid; simpl in *.
    + by apply (Hrs s).
    + exfalso. apply Hfresh. rewrite Hid. by apply Hrr.
    + exfalso. apply Hfresh. rewrite <- Hid. by apply list_elem_of_fmap_2.
    + done.
  - rewrite fmap_app. apply NoDup_app. split_and!; [done| |apply NoDup_singleton].
    intros x Hx ->%list_elem_of_singleton. apply Hfresh.
    apply list_elem_of_fmap in Hx as (s & Heq & Hs). simpl in Heq.
    rewrite Heq. by apply Hrr.
  - intros l Hl. rewrite fmap_app. apply elem_of_app. left. by apply Hlj.
Qed.

Lemma invariant_run e file db run1 search run2 db' :
  invariant (mkSystem db (run1 ++ search :: run2)) →
  import_outcome e (Search.ID search) file db db' →
  invariant (mkSystem db' (run1 ++ run2)).
Proof.
  intros [Hc Ho Hrr Hrs Hnd Hlj] Hout. simpl in *.
  assert (Hin : search ∈ run1 ++ search :: run2).
  { apply elem_of_app. right. by left. }
  assert (Hrest : ∀ s, s ∈ run1 ++ run2 →
            s ∈ run1 ++ search :: run2 ∧ Search.ID s ≠ Search.ID search)
    by (intros s; by apply running_without).
  pose proof (running_without_nodup _ _ _ Hnd) as Hnd'.
  destruct Hout as [| |input scrapedLeads -> Hdec].
  - split; simpl; try done.
    + intros s Hs. by apply Hrr, Hrest.
    + intros s r Hs Hr. apply Hrs; [by apply Hrest|done].
  - split; simpl; try done.
    + intros r' (r & -> & Hr)%list_elem_of_fmap. case_bool_decide; [done|].
      intros Hst. unfold count_agrees.
      rewrite (count_leads_leads _ db) by done. by apply Hc.
    + intros r' (r & -> & Hr)%list_elem_of_fmap Hst. unfold no_leads.
      rewrite (count_leads_leads _ db) by done.
      case_bool_decide as Hid; [|by apply Ho].
      simpl. apply (Ho r Hr). by rewrite (Hrs search r).
    + intros s Hs. rewrite ids_fmap by (intros; by case_bool_decide).
      by apply Hrr, Hrest.
    + intros s r' Hs (r & -> & Hr)%list_elem_of_fmap.
      destruct (Hrest s Hs) as [Hs' Hne].
      case_bool_decide as Hid; simpl; [by rewrite Hid|]. by apply Hrs.
    + intros l Hl. rewrite ids_fmap by (intros; by case_bool_decide).
      by apply Hlj.
  - set (n := length scrapedLeads).
    assert (Hzero : count_leads (Search.ID search) db = 0).
    { pose proof (Hrr search Hin) as Hrow.
      apply list_elem_of_fmap in Hrow as (r & Hid & Hr).
      destruct (Ho r Hr) as [Hz _]; [by rewrite (Hrs search r)|].
      by rewrite Hid. }
    split; simpl; try done.
    + intros r' (r & -> & Hr)%list_elem_of_fmap. unfold count_agrees.
      case_bool_decide as Hid; simpl.
      * intros _. do 2 f_equal.
        rewrite Hid, (count_leads_leads _
          (mkDB (searches db) (leads db ++ imported_rows e (Search.ID search) scrapedLeads 0)
             (crm_leads db))) by done.
        rewrite count_leads_imported, bool_decide_eq_true_2 by done.
        rewrite (count_leads_leads _ db) by done. by rewrite Hzero.
      * intros Hst.
        rewrite (count_leads_leads _
          (mkDB (searches db) (leads db ++ imported_rows e (Search.ID search) scrapedLeads 0)
             (crm_leads db))) by done.
        rewrite count_leads_imported, bool_decide_eq_false_2 by done.
        rewrite (count_leads_leads _ db), Nat.add_0_r by done. by apply Hc.
    + intros r' (r & -> & Hr)%list_elem_of_fmap.
      case_bool_decide as Hid; simpl; [done|]. intros Hst. unfold no_leads.
      rewrite (count_leads_leads _
        (mkDB (searches db) (leads db ++ imported_rows e (Search.ID search) scrapedLeads 0)
           (crm_leads db))) by done.
      rewrite count_leads_imported, bool_decide_eq_false_2 by done.
      rewrite (count_leads_leads _ db), Nat.add_0_r by done. by apply Ho.
    + intros s Hs. rewrite ids_fmap by (intros; by case_bool_decide).
      by apply Hrr, Hrest.
    + intros s r' Hs (r & -> & Hr)%list_elem_of_fmap.
      destruct (Hrest s Hs) as [Hs' Hne].
      case_bool_decide as Hid; simpl; [by rewrite Hid|]. by apply Hrs.
    + intros l Hl. rewrite ids_fmap by (intros; by case_bool_decide).
      apply elem_of_app in Hl as [Hl|Hl]; [by apply Hlj|].
      apply imported_rows_job in Hl as ->. by apply Hrr.
Qed.

Lemma invariant_crm sys db' :
  searches db' = searches (store sys) → leads db' = leads (store sys) →
  invariant sys → invariant (mkSystem db' (running sys)).
Proof.
  intros Hs Hl [Hc Ho Hrr Hrs Hnd Hlj].
  split; simpl; unfold count_agrees, no_leads; rewrite ?Hs, ?Hl; try done.
  - intros r Hr Hst. rewrite (count_leads_leads _ (store sys)) by done. by apply Hc.
  - intros r Hr Hst. rewrite (count_leads_leads _ (store sys)) by done. by apply Ho.
Qed.

Lemma add_loop_frame e userID leadsToAdd : ∀ i tx tx',
  add_loop e userID leadsToAdd i tx = Some tx' →
  searches tx' = searches tx ∧ leads tx' = leads tx.
Proof.
  induction leadsToAdd as [|lead rest IH]; intros i tx tx' Hloop; simpl in *.
  - by injection Hloop as <-.
  - destruct (stmt_err e i); [done|].
    apply IH in Hloop as [-> ->].
    unfold add_lead, Sql.insert_or_ignore_crm_lead.
    by destruct (Sql.crm_key_taken _ _ _).
Qed.

Lemma addLeadsToCrmHandler_frame e userID input db :
  searches (addLeadsToCrmHandler e userID input db).2 = searches db ∧
  leads (addLeadsToCrmHandler e userID input db).2 = leads db.
Proof.
  unfold addLeadsToCrmHandler.
  destruct input as [msg|leadsToAdd]; [done|].
  destruct (begin_err e); [done|]. destruct (prepare_err e); [done|].
  destruct (add_loop e userID leadsToAdd 0 db) as [tx|] eqn:Hloop; [|done].
  simpl. destruct (commit_err e); [done|]. by apply add_loop_frame in Hloop.
Qed.

Lemma updateCrmStateHandler_frame e userID input db :
  searches (updateCrmStateHandler e userID input db).2 = searches db ∧
  leads (updateCrmStateHandler e userID input db).2 = leads db.
Proof.
  unfold updateCrmStateHandler.
  destruct input as [msg|input]; [done|]. by destruct (exec_err e).
Qed.

Lemma updateCrmLeadHandler_frame e userID leadID input db :
  searches (updateCrmLeadHandler e userID leadID input db).2 = searches db ∧
  leads (updateCrmLeadHandler e userID leadID input db).2 = leads db.
Proof.
  unfold updateCrmLeadHandler.
  destruct input as [msg|updatedLead]; [done|]. by destruct (exec_err e).
Qed.

Lemma invariant_initial : invariant initial.
Proof.
  split; simpl; try (intros ? ?%elem_of_nil; done).
  - intros ? ? ?%elem_of_nil; done.
  - apply NoDup_nil_2.
Qed.

Lemma invariant_step sys sys' : step sys sys' → invariant sys → invariant sys'.
Proof.
  intros Hstep Hinv. destruct Hstep.
  - by eapply invariant_start.
  - eapply invariant_run; [done|]. apply runScraper_outcome.
  - apply (invariant_crm (mkSystem db run)); [..|done];
      apply addLeadsToCrmHandler_frame.
  - apply (invariant_crm (mkSystem db run)); [..|done];
      apply updateCrmStateHandler_frame.
  - apply (invariant_crm (mkSystem db run)); [..|done];
      apply updateCrmLeadHandler_frame.
Qed.

Lemma invariant_reachable sys : reachable sys → invariant sys.
Proof.
  unfold reachable. intros Hreach.
  refine (rtc_ind_r invariant initial invariant_initial _ sys Hreach).
  intros y z _ Hstep IH. by eapply invariant_step.
Qed.

(** * The scenarios, step by step *)

Lemma scenario_started : reachable (mkSystem Scenario.started [Scenario.new_search]).
Proof.
  eapply rtc_l; [|apply rtc_refl].
  by apply (step_start empty_db [] Scenario.start_env 1 (Bound "plumbers in london")
              (mkResponse StatusAccepted (SearchBody Scenario.new_search))
              Scenario.started (Some Scenario.new_search)).
Qed.

Lemma scenario_failed : reachable (mkSystem Scenario.failed []).
Proof.
  eapply rtc_r; [apply scenario_started|].
  apply (step_run Scenario.started [] Scenario.new_search [] Scenario.import_env
           (Scenario.run_with Json.Broken)).
Qed.

Lemma scenario_completed : reachable (mkSystem Scenario.completed []).
Proof.
  eapply rtc_r; [apply scenario_started|].
  apply (step_run Scenario.started [] Scenario.new_search [] Scenario.import_env
           (Scenario.run_with Scenario.acme_object_input)).
Qed.

(** * Search jobs *)

(** C1 (amended).  In every state the system can reach, a job whose
    status is Completed has a [leads_found] equal to the number of Lead
    rows that reference it, and a job whose status is Failed has no
    Lead row and a [leads_found] of zero. *)
Theorem terminal_jobs_consistent sys r :
  reachable sys → r ∈ searches (store sys) → job_consistent (store sys) r.
Proof.
  intros Hinv%invariant_reachable Hr. split; intros Hst.
  - by apply (inv_completed _ Hinv).
  - apply (inv_others _ Hinv); [done|]. by rewrite Hst.
Qed.

Lemma terminal_jobs_consistent_witness :
  reachable (mkSystem Scenario.completed []) ∧
  Scenario.completed_row ∈ searches Scenario.completed ∧
  job_consistent Scenario.completed Scenario.completed_row.
Proof.
  split; [apply scenario_completed|]. split; [by left|].
  apply (terminal_jobs_consistent (mkSystem Scenario.completed [])).
  - apply scenario_completed.
  - by left.
Defined.

(** C1 as stated fails: after a run on a malformed output file the job
    is Failed, its found-count 0 is the number of its Lead rows, and so
    an agreeing count does not make a terminal job Completed. *)
Lemma completed_iff_count_fails :
  JsonText.read_file Scenario.malformed = Some Json.Broken ∧
  reachable (mkSystem Scenario.failed []) ∧
  Scenario.failed_row ∈ searches Scenario.failed ∧
  ¬ completed_iff_count Scenario.failed Scenario.failed_row.
Proof.
  split; [by vm_compute|]. split; [apply scenario_failed|]. split; [by left|].
  intros [Hiff _].
  assert (Hst : SearchesRow.status Scenario.failed_row = "Completed");
    [|discriminate Hst].
  apply Hiff; [by right|reflexivity].
Qed.

Lemma decode_loop_stream vs : ∀ scrapedLeads,
  decode_loop (stream vs) scrapedLeads = (scrapedLeads ++.) <$> mapM Json.unmarshal vs.
Proof.
  induction vs as [|v vs IH]; intros acc; simpl.
  - by rewrite app_nil_r.
  - destruct (Json.unmarshal v) as [lead|]; simpl; [|done].
    rewrite IH. destruct (mapM Json.unmarshal vs) as [leads'|]; simpl; [|done].
    by rewrite <- app_assoc.
Qed.



(** [null] under a repeated [emails] key drops the emails that an
    earlier occurrence of the key has stored, and leaves a [title]
    alone. *)
Lemma null_resets_emails_only :
  Json.unmarshal
    (Json.JObject [("title", Json.JString "Acme"); ("title", Json.JNull);
                   ("emails", Json.JArray [Json.JString "a@x.com"]);
                   ("emails", Json.JNull)]) =
  Some (ScrapedLead.mk "Acme" "" "" []).
Proof. reflexivity. Qed.

(** C2 (amended).  The Result Importer reads the output file as a
    stream of JSON values and decodes each of them into one
    scraped-lead entry, in order; a value that is a JSON array cannot
    be decoded into an entry, and a file that holds one makes the
    import end like any other decoding error.  For the output file
    that holds the object
    {"title":"Acme","phone":"555","web_site":"acme.com","emails":["a@acme.com"]}
    and nothing around it, the import commits exactly one Lead row,
    with email a@acme.com, and sets the job to Completed with a
    found-count of 1. *)
Theorem importer_reads_object_stream :
  (∀ vs, decode_loop (stream vs) [] = mapM Json.unmarshal vs) ∧
  (∀ elems rest, decode_loop (Json.Value (Json.JArray elems) rest) [] = None) ∧
  (∀ e searchID elems rest db,
     processScraperOutput e searchID (Some (Json.Value (Json.JArray elems) rest)) db =
     updateSearchStatus e searchID "Failed" db) ∧
  JsonText.read_file Scenario.acme_object = Some Scenario.acme_object_input ∧
  decode_loop Scenario.acme_object_input [] = Some [Scenario.acme] ∧
  processScraperOutput Scenario.import_env Scenario.job
    (Some Scenario.acme_object_input) Scenario.started = Scenario.completed ∧
  LeadsRow.email <$> leads Scenario.completed = [Some "a@acme.com"] ∧
  count_leads Scenario.job Scenario.completed = 1.
Proof.
  split_and!; try by vm_compute.
  intros vs. rewrite decode_loop_stream.
  by destruct (mapM Json.unmarshal vs).
Qed.

(** C2 as stated fails: the file that holds the same object inside a
    one-element JSON array is not decoded into the entry that the bare
    object gives; no Lead row is committed for it and the job ends
    Failed with a found-count of 0. *)
Lemma acme_array_fails :
  JsonText.read_file Scenario.acme_array = Some Scenario.acme_array_input ∧
  decode_loop Scenario.acme_array_input [] ≠ decode_loop Scenario.acme_object_input [] ∧
  processScraperOutput Scenario.import_env Scenario.job
    (Some Scenario.acme_array_input) Scenario.started = Scenario.failed ∧
  leads Scenario.failed = [] ∧
  SearchesRow.status <$> searches Scenario.failed = ["Failed"].
Proof. split_and!; by vm_compute. Qed.



(** C3 (amended).  For a create-search-job request with a present
    keyword, when the store runs the insert and the generated
    identifier is not taken, the Job Initiator appends a Search Job row
    with status "In Progress" and a found-count of 0, hands the job to
    the background run and answers Accepted with that job record:
    status "In Progress", found-count 0 and the generated identifier.
    Whenever the answer is Accepted, that identifier was the id of no
    earlier job. *)
Theorem start_search_in_progress e userID keyword db :
  keyword ≠ "" →
  let newSearch := Search.mk (uuid e 0) userID keyword "In Progress" 0 (now e) in
  let row := SearchesRow.mk (uuid e 0) userID keyword "In Progress" (Some 0%Z)
               (Some (db_now e 0)) in
  let accepted :=
    (mkResponse StatusAccepted (SearchBody newSearch),
     mkDB (searches db ++ [row]) (leads db) (crm_leads db), Some newSearch) in
  (exec_err e = None → uuid e 0 ∉ SearchesRow.id <$> searches db →
   startSearchHandler e userID (Bound keyword) db = accepted) ∧
  (code (fst (fst (startSearchHandler e userID (Bound keyword) db))) = StatusAccepted →
   (uuid e 0 ∉ SearchesRow.id <$> searches db) ∧
   startSearchHandler e userID (Bound keyword) db = accepted).
Proof.
  intros Hkw newSearch row accepted. unfold startSearchHandler.
  rewrite bool_decide_eq_false_2 by done.
  unfold run_stmt, Sql.insert_search. simpl.
  split.
  - intros -> Hfresh. by rewrite bool_decide_eq_false_2.
  - destruct (exec_err e); [done|]. by case_bool_decide.
Qed.

Lemma start_search_in_progress_witness :
  startSearchHandler Scenario.start_env 1 (Bound "plumbers in london") empty_db =
  (mkResponse StatusAccepted (SearchBody Scenario.new_search), Scenario.started,
   Some Scenario.new_search).
Proof.
  destruct (start_search_in_progress Scenario.start_env 1 "plumbers in london"
              empty_db) as [Haccepted _]; [discriminate|].
  apply Haccepted; [reflexivity|]. simpl. apply not_elem_of_nil.
Defined.

(** C3 as stated fails: for the keyword "plumbers in london" the
    Accepted response carries a job whose status is "In Progress", not
    "Pending", and so does the row that was inserted. *)
Lemma start_search_not_pending :
  startSearchHandler Scenario.start_env 1 (Bound "plumbers in london") empty_db =
  (mkResponse StatusAccepted (SearchBody Scenario.new_search), Scenario.started,
   Some Scenario.new_search) ∧
  Search.Status Scenario.new_search ≠ "Pending" ∧
  SearchesRow.status <$> searches Scenario.started = ["In Progress"].
Proof. split_and!; [reflexivity|discriminate|reflexivity]. Qed.

(** * Reading the leads of a job *)

Lemma select_search_owner_row searchID db ownerID :
  Sql.select_search_owner searchID db = Some ownerID →
  ∃ r, r ∈ searches db ∧ SearchesRow.id r = searchID ∧ SearchesRow.user_id r = ownerID.
Proof.
  unfold Sql.select_search_owner.
  destruct (filter _ (searches db)) as [|r rest] eqn:Hf; [done|].
  simpl. intros [= <-]. exists r.
  assert (Hr : r ∈ filter (λ r, SearchesRow.id r = searchID) (searches db))
    by (rewrite Hf; left).
  apply list_elem_of_filter in Hr as [Hid Hr]. done.
Qed.

Lemma getLeads_denied e userID searchID db :
  (∀ r, r ∈ searches db → SearchesRow.id r = searchID →
        SearchesRow.user_id r ≠ userID) →
  getLeadsForSearchHandler e userID searchID db = access_denied.
Proof.
  intros Hforeign. unfold getLeadsForSearchHandler.
  destruct (query_err e 0); [done|].
  destruct (Sql.select_search_owner searchID db) as [ownerID|] eqn:Hsel; [|done].
  apply select_search_owner_row in Hsel as (r & Hr & Hid & <-).
  rewrite bool_decide_eq_true_2; [done|]. by apply Hforeign.
Qed.

(** C5.  A request for the leads of a job that exists and whose owner
    is not the caller is answered with AccessDenied (403, "Access
    denied"), whatever the store does, and the response carries no
    list of leads. *)
Theorem foreign_job_access_denied e userID searchID db :
  searchID ∈ SearchesRow.id <$> searches db →
  (∀ r, r ∈ searches db → SearchesRow.id r = searchID →
        SearchesRow.user_id r ≠ userID) →
  getLeadsForSearchHandler e userID searchID db = access_denied ∧
  code (getLeadsForSearchHandler e userID searchID db) = StatusForbidden ∧
  ∀ ls, body (getLeadsForSearchHandler e userID searchID db) ≠ LeadsBody ls.
Proof.
  intros _ Hforeign. rewrite getLeads_denied by done. by split_and!.
Qed.

Lemma foreign_job_access_denied_witness :
  getLeadsForSearchHandler Scenario.start_env 2 Scenario.job Scenario.completed =
  access_denied.
Proof.
  apply (foreign_job_access_denied Scenario.start_env 2 Scenario.job Scenario.completed).
  - by left.
  - intros r ->%list_elem_of_singleton _. discriminate.
Defined.

(** C10.  A request for the leads of a search id that no Search Job
    row has is answered with the same AccessDenied response as a
    request for a job of another user: the two answers are equal, and
    no not-found answer exists. *)
Theorem unknown_job_access_denied e userID searchID db :
  searchID ∉ SearchesRow.id <$> searches db →
  getLeadsForSearchHandler e userID searchID db = access_denied ∧
  ∀ e' db',
    searchID ∈ SearchesRow.id <$> searches db' →
    (∀ r, r ∈ searches db' → SearchesRow.id r = searchID →
          SearchesRow.user_id r ≠ userID) →
    getLeadsForSearchHandler e' userID searchID db' =
    getLeadsForSearchHandler e userID searchID db.
Proof.
  intros Hunknown.
  assert (Hdenied : getLeadsForSearchHandler e userID searchID db = access_denied).
  { apply getLeads_denied. intros r Hr Hid. destruct Hunknown.
    rewrite <- Hid. by apply list_elem_of_fmap_2. }
  split; [done|]. intros e' db' _ Hforeign. rewrite Hdenied.
  by apply getLeads_denied.
Qed.

Lemma unknown_job_access_denied_witness :
  getLeadsForSearchHandler Scenario.start_env 1 "no-such-job" Scenario.completed =
  access_denied ∧
  getLeadsForSearchHandler Scenario.start_env 2 Scenario.job Scenario.completed =
  getLeadsForSearchHandler Scenario.start_env 2 "no-such-job" Scenario.completed.
Proof.
  destruct (unknown_job_access_denied Scenario.start_env 1 "no-such-job"
              Scenario.completed) as [Hdenied _].
  { simpl. intros [Heq|Hnil]%elem_of_cons; [discriminate Heq|].
    by apply elem_of_nil in Hnil. }
  split; [exact Hdenied|].
  destruct (unknown_job_access_denied Scenario.start_env 2 "no-such-job"
              Scenario.completed) as [_ Hsame].
  { simpl. intros [Heq|Hnil]%elem_of_cons; [discriminate Heq|].
    by apply elem_of_nil in Hnil. }
  reflexivity.
Defined.

(** * The CRM store *)

Lemma crm_where_entry userID leadID r :
  Sql.crm_where userID leadID r = true ↔ entry_of userID leadID r.
Proof.
  unfold Sql.crm_where, entry_of.
  rewrite andb_true_iff, !bool_decide_eq_true. done.
Qed.

Lemma crm_key_taken_entry userID leadID db :
  Sql.crm_key_taken userID leadID db = true ↔
  ∃ r, r ∈ crm_leads db ∧ entry_of userID leadID r.
Proof.
  unfold Sql.crm_key_taken, entry_of. rewrite bool_decide_eq_true, list_elem_of_fmap.
  split.
  - intros (r & [= -> ->] & Hr). by exists r.
  - intros (r & Hr & <- & <-). by exists r.
Qed.

Section InsertOrIgnore.
Context (userID : Z) (lead : Lead.t).

Lemma insert_or_ignore_taken db :
  Sql.crm_key_taken userID (Lead.ID lead) db = true → add_lead userID lead db = db.
Proof. unfold add_lead, Sql.insert_or_ignore_crm_lead. by intros ->. Qed.

Lemma insert_or_ignore_takes db :
  Sql.crm_key_taken userID (Lead.ID lead) (add_lead userID lead db) = true.
Proof.
  unfold add_lead, Sql.insert_or_ignore_crm_lead.
  destruct (Sql.crm_key_taken userID (Lead.ID lead) db) eqn:Htaken; [done|].
  apply crm_key_taken_entry. eexists.
  split; [simpl; apply elem_of_app; right; by left|done].
Qed.

Lemma insert_or_ignore_mono u leadID db :
  Sql.crm_key_taken u leadID db = true →
  Sql.crm_key_taken u leadID (add_lead userID lead db) = true.
Proof.
  unfold add_lead, Sql.insert_or_ignore_crm_lead.
  destruct (Sql.crm_key_taken userID (Lead.ID lead) db); [done|].
  rewrite !crm_key_taken_entry. intros (r & Hr & Hkey). exists r.
  split; [|done]. simpl. apply elem_of_app. by left.
Qed.

Lemma insert_or_ignore_entries u leadID db :
  Sql.crm_key_taken u leadID db = true →
  crm_entries u leadID (add_lead userID lead db) = crm_entries u leadID db.
Proof.
  unfold add_lead, Sql.insert_or_ignore_crm_lead. intros Htaken.
  destruct (Sql.crm_key_taken userID (Lead.ID lead) db) eqn:Hnew; [done|].
  unfold crm_entries. simpl. rewrite filter_app, filter_cons_False, filter_nil.
  - apply app_nil_r.
  - intros [Hu Hl]%crm_where_entry. simpl in *. by rewrite Hu, Hl, Htaken in Hnew.
Qed.

End InsertOrIgnore.

Lemma add_loop_entries e userID leadsToAdd : ∀ i tx tx' u leadID,
  add_loop e userID leadsToAdd i tx = Some tx' →
  Sql.crm_key_taken u leadID tx = true →
  Sql.crm_key_taken u leadID tx' = true ∧
  crm_entries u leadID tx' = crm_entries u leadID tx.
Proof.
  induction leadsToAdd as [|lead rest IH]; intros i tx tx' u leadID Hloop Htaken;
    simpl in *.
  - by injection Hloop as <-.
  - destruct (stmt_err e i); [done|].
    apply (IH _ _ _ u leadID) in Hloop as [Ht ->];
      [|by apply insert_or_ignore_mono].
    split; [done|]. by apply insert_or_ignore_entries.
Qed.

Lemma add_loop_takes e userID leadsToAdd : ∀ i tx tx',
  add_loop e userID leadsToAdd i tx = Some tx' →
  Forall (λ lead, Sql.crm_key_taken userID (Lead.ID lead) tx' = true) leadsToAdd.
Proof.
  induction leadsToAdd as [|lead rest IH]; intros i tx tx' Hloop; simpl in *.
  - constructor.
  - destruct (stmt_err e i); [done|]. constructor; [|by eapply IH].
    eapply add_loop_entries; [done|]. apply insert_or_ignore_takes.
Qed.

Lemma add_loop_taken e userID leadsToAdd : ∀ i tx tx',
  Forall (λ lead, Sql.crm_key_taken userID (Lead.ID lead) tx = true) leadsToAdd →
  add_loop e userID leadsToAdd i tx = Some tx' → tx' = tx.
Proof.
  induction leadsToAdd as [|lead rest IH]; intros i tx tx' Hall Hloop; simpl in *.
  - by injection Hloop as <-.
  - destruct (stmt_err e i); [done|].
    apply Forall_cons in Hall as [Hlead Hrest].
    rewrite insert_or_ignore_taken in Hloop by done. by eapply IH.
Qed.

Lemma addLeads_taken e userID leadsToAdd db :
  Forall (λ lead, Sql.crm_key_taken userID (Lead.ID lead) db = true) leadsToAdd →
  snd (addLeadsToCrmHandler e userID (Bound leadsToAdd) db) = db.
Proof.
  intros Hall. unfold addLeadsToCrmHandler.
  destruct (begin_err e); [done|]. destruct (prepare_err e); [done|].
  destruct (add_loop e userID leadsToAdd 0 db) as [tx|] eqn:Hloop; [|done].
  simpl. destruct (commit_err e); [done|]. by eapply add_loop_taken.
Qed.

(** C6.  Bulk-adding leads never touches an entry that exists: for
    every key (user, lead) that has an entry, the entry is the same row
    after the call (column, notes, call count, callback date and
    snapshot), whatever the request holds and whatever the store does.
    Adding leads that all have an entry leaves the whole table as it
    is, and so does adding again the leads of a request that was
    committed. *)
Theorem add_leads_first_add_wins e userID input db :
  let db' := snd (addLeadsToCrmHandler e userID input db) in
  (∀ u leadID, Sql.crm_key_taken u leadID db = true →
     crm_entries u leadID db' = crm_entries u leadID db) ∧
  (∀ leadsToAdd, input = Bound leadsToAdd →
     Forall (λ lead, Sql.crm_key_taken userID (Lead.ID lead) db = true) leadsToAdd →
     db' = db) ∧
  (∀ e', code (fst (addLeadsToCrmHandler e userID input db)) = StatusOK →
     commit_err e = None →
     snd (addLeadsToCrmHandler e' userID input db') = db').
Proof.
  intros db'. split_and!.
  - intros u leadID Htaken. unfold db', addLeadsToCrmHandler.
    destruct input as [msg|leadsToAdd]; [done|].
    destruct (begin_err e); [done|]. destruct (prepare_err e); [done|].
    destruct (add_loop e userID leadsToAdd 0 db) as [tx|] eqn:Hloop; [|done].
    simpl. destruct (commit_err e); [done|].
    by eapply add_loop_entries.
  - intros leadsToAdd -> Hall. by apply addLeads_taken.
  - intros e'. unfold db', addLeadsToCrmHandler.
    destruct input as [msg|leadsToAdd]; [done|].
    destruct (begin_err e); [done|]. destruct (prepare_err e); [done|].
    destruct (add_loop e userID leadsToAdd 0 db) as [tx|] eqn:Hloop; [|done].
    simpl. intros _ ->.
    apply (addLeads_taken e' userID leadsToAdd tx). by eapply add_loop_takes.
Qed.

Lemma add_leads_first_add_wins_witness :
  crm_entries 1 "lead-0"
    (snd (addLeadsToCrmHandler Scenario.start_env 1 (Bound [Scenario.acme_lead])
            Scenario.crm)) = [Scenario.acme_entry] ∧
  snd (addLeadsToCrmHandler Scenario.start_env 1 (Bound [Scenario.acme_lead])
         Scenario.crm) = Scenario.crm.
Proof.
  destruct (add_leads_first_add_wins Scenario.start_env 1 (Bound [Scenario.acme_lead])
              Scenario.crm) as (Hentries & Hsame & _).
  split.
  - rewrite Hentries; reflexivity.
  - apply (Hsame [Scenario.acme_lead]); [reflexivity|].
    constructor; [reflexivity|constructor].
Defined.

(** A table rewritten row by row relates each old row to its new
    one. *)
Lemma rows_rewritten {A : Type} (P : A → A → Prop) (f : A → A) (l l' : list A) :
  l' = f <$> l → (∀ r, P r (f r)) → Forall2 P l l'.
Proof.
  intros -> Hf. apply Forall2_fmap_r, Forall_Forall2_diag, Forall_forall.
  intros r _. apply Hf.
Qed.

(** ** The board that [getCrmHandler] builds *)

Lemma crm_rows_known rows : ∀ acc r,
  r ∈ rows → is_Some ((foldl crm_row_step acc rows).1 !! CrmLeadsRow.lead_id r).
Proof.
  assert (Hkeep : ∀ rows acc k,
            is_Some (acc.1 !! k) → is_Some ((foldl crm_row_step acc rows).1 !! k)).
  { clear. induction rows as [|r' rows IH]; intros acc k Hk; simpl; [done|].
    apply IH. simpl. destruct (decide (CrmLeadsRow.lead_id r' = k)) as [->|Hne].
    - rewrite lookup_insert_eq. by eexists.
    - by rewrite lookup_insert_ne. }
  induction rows as [|r' rows IH]; intros acc r Hr; simpl.
  - by apply elem_of_nil in Hr.
  - apply elem_of_cons in Hr as [->|Hr]; [|by apply IH].
    apply Hkeep. simpl. rewrite lookup_insert_eq. by eexists.
Qed.

Lemma crm_rows_scanned (P : string → CrmLead.t → Prop) rows : ∀ acc,
  (∀ k cl, acc.1 !! k = Some cl → P k cl) →
  (∀ r, r ∈ rows → P (CrmLeadsRow.lead_id r) (scan_crm_lead r)) →
  ∀ k cl, (foldl crm_row_step acc rows).1 !! k = Some cl → P k cl.
Proof.
  induction rows as [|r rows IH]; intros acc Hacc Hrows; simpl; [done|].
  apply IH.
  - intros k cl. simpl. destruct (decide (CrmLeadsRow.lead_id r = k)) as [<-|Hne].
    + rewrite lookup_insert_eq. intros [= <-]. apply Hrows. by left.
    + rewrite lookup_insert_ne by done. apply Hacc.
  - intros r' Hr'. apply Hrows. by right.
Qed.

(** C7.  For an entry of the calling user that exists, once the
    field update has been run by the store, the next fetch of the board
    that the store answers returns, under the lead's id, the notes, the
    call count and the callback date of the payload. *)
Theorem update_then_fetch e e' userID leadID updatedLead db :
  Sql.crm_key_taken userID leadID db = true →
  exec_err e = None →
  query_err e' 0 = None →
  rows_err e' = None →
  let db' := snd (updateCrmLeadHandler e userID leadID (Bound updatedLead) db) in
  ∃ crmLeads tobe_called contacted cl,
    getCrmHandler e' userID db' =
      mkResponse StatusOK (CrmBody crmLeads tobe_called contacted) ∧
    crmLeads !! leadID = Some cl ∧
    CrmLead.Notes cl = CrmLead.Notes updatedLead ∧
    CrmLead.TimesCalled cl = CrmLead.TimesCalled updatedLead ∧
    CrmLead.CallBackDate cl = CrmLead.CallBackDate updatedLead.
Proof.
  intros (r0 & Hr0 & Hu0 & Hl0)%crm_key_taken_entry Hexec Hquery Hrows db'.
  unfold getCrmHandler. rewrite Hquery, Hrows.
  destruct (foldl crm_row_step _ (Sql.select_crm_leads userID db'))
    as [crmLeads columns] eqn:Hfold.
  set (updated := CrmLeadsRow.with_details (CrmLead.Notes updatedLead)
                    (CrmLead.TimesCalled updatedLead) (CrmLead.CallBackDate updatedLead)).
  assert (Hrows' : ∀ r, r ∈ Sql.select_crm_leads userID db' →
            ∃ r1, r1 ∈ crm_leads db ∧ CrmLeadsRow.user_id r1 = userID ∧
                  r = if Sql.crm_where userID leadID r1 then updated r1 else r1).
  { intros r [Hu Hr]%elem_of_select_crm_leads.
    unfold db', updateCrmLeadHandler in Hr. rewrite Hexec in Hr. simpl in Hr.
    apply list_elem_of_fmap in Hr as (r1 & -> & Hr1). exists r1.
    split_and!; [done| |done]. by destruct (Sql.crm_where userID leadID r1). }
  assert (Hin : updated r0 ∈ Sql.select_crm_leads userID db').
  { apply elem_of_select_crm_leads. split; [done|].
    unfold db', updateCrmLeadHandler. rewrite Hexec. simpl.
    apply list_elem_of_fmap. exists r0. split; [|done].
    by rewrite (proj2 (crm_where_entry userID leadID r0)). }
  pose proof (crm_rows_known _ (∅, <["tobe-called" := []]> (<["contacted" := []]> ∅))
                _ Hin) as [cl Hcl].
  rewrite Hfold in Hcl. simpl in Hcl. rewrite Hl0 in Hcl.
  exists crmLeads, (default [] (columns !! "tobe-called")),
    (default [] (columns !! "contacted")), cl.
  split; [done|]. split; [done|].
  assert (Hscan : (foldl crm_row_step
                     (∅, <["tobe-called" := []]> (<["contacted" := []]> ∅))
                     (Sql.select_crm_leads userID db')).1 !! leadID = Some cl)
    by by rewrite Hfold.
  refine (crm_rows_scanned (λ k cl, k = leadID →
            CrmLead.Notes cl = CrmLead.Notes updatedLead ∧
            CrmLead.TimesCalled cl = CrmLead.TimesCalled updatedLead ∧
            CrmLead.CallBackDate cl = CrmLead.CallBackDate updatedLead)
            _ _ _ _ leadID cl Hscan eq_refl).
  - intros k cl'. simpl. by rewrite lookup_empty.
  - intros r Hr Hk. destruct (Hrows' r Hr) as (r1 & Hr1 & Hu1 & ->).
    destruct (Sql.crm_where userID leadID r1) eqn:Hwhere; [done|].
    apply not_true_iff_false in Hwhere. destruct Hwhere.
    by apply crm_where_entry.
Qed.

Lemma update_then_fetch_witness :
  ∃ crmLeads tobe_called contacted cl,
    getCrmHandler Scenario.start_env 1
      (snd (updateCrmLeadHandler Scenario.start_env 1 "lead-0" (Bound Scenario.edited)
              Scenario.crm)) =
      mkResponse StatusOK (CrmBody crmLeads tobe_called contacted) ∧
    crmLeads !! "lead-0" = Some cl ∧
    CrmLead.Notes cl = "call again on Monday" ∧
    CrmLead.TimesCalled cl = 3%Z ∧
    CrmLead.CallBackDate cl = Some 900%Z.
Proof.
  apply (update_then_fetch Scenario.start_env Scenario.start_env 1 "lead-0"
           Scenario.edited Scenario.crm); reflexivity.
Defined.

(** C8.  The field update leaves the other tables alone and changes
    [crm_leads] row by row: every row keeps its key, its snapshot
    fields (company name, phone, website, email, page speed) and its
    column; a row that is not the caller's entry for the lead is not
    changed at all; and when the store has run the update (the answer
    is 200) the caller's entry for the lead holds the notes, the call
    count and the callback date of the payload. *)
Theorem update_lead_frame e userID leadID input db :
  let out := updateCrmLeadHandler e userID leadID input db in
  searches (snd out) = searches db ∧
  leads (snd out) = leads db ∧
  Forall2 (λ r r', same_but_details r r' ∧ (¬ entry_of userID leadID r → r' = r))
    (crm_leads db) (crm_leads (snd out)) ∧
  (∀ updatedLead, input = Bound updatedLead → code (fst out) = StatusOK →
     Forall (λ r', entry_of userID leadID r' →
               CrmLeadsRow.notes r' = Some (CrmLead.Notes updatedLead) ∧
               CrmLeadsRow.times_called r' = Some (CrmLead.TimesCalled updatedLead) ∧
               CrmLeadsRow.callback_date r' = CrmLead.CallBackDate updatedLead)
       (crm_leads (snd out))).
Proof.
  assert (Hrefl : Forall2 (λ r r', same_but_details r r' ∧
                     (¬ entry_of userID leadID r → r' = r)) (crm_leads db) (crm_leads db)).
  { apply (rows_rewritten _ id); [by rewrite list_fmap_id|]. by repeat split. }
  simpl. unfold updateCrmLeadHandler.
  destruct input as [msg|updatedLead]; [by split_and!|].
  destruct (exec_err e); [by split_and!|].
  simpl. split_and!; [done|done| |].
  - eapply rows_rewritten; [done|]. intros r. simpl.
    destruct (Sql.crm_where userID leadID r) eqn:Hwhere; [|by repeat split].
    split; [by repeat split|]. intros []. by apply crm_where_entry.
  - intros ? [= <-] _. apply Forall_fmap, Forall_forall. intros r Hr. simpl.
    destruct (Sql.crm_where userID leadID r) eqn:Hwhere; [done|].
    intros Hentry%crm_where_entry. by rewrite Hentry in Hwhere.
Qed.

Lemma update_lead_frame_witness :
  updateCrmLeadHandler Scenario.start_env 1 "lead-0" (Bound Scenario.edited) Scenario.crm =
  (mkResponse StatusOK (CrmLeadBody Scenario.edited),
   mkDB [Scenario.completed_row] [Scenario.acme_row]
     [CrmLeadsRow.mk 1 "lead-0" "contacted" (Some "call again on Monday") (Some 3%Z)
        (Some 900%Z) (Some "Acme") (Some "555") (Some "acme.com") (Some "a@acme.com")
        (Some 0%Z);
      Scenario.other_entry]) ∧
  Forall (λ r', entry_of 1 "lead-0" r' →
            CrmLeadsRow.notes r' = Some "call again on Monday" ∧
            CrmLeadsRow.times_called r' = Some 3%Z ∧
            CrmLeadsRow.callback_date r' = Some 900%Z)
    (crm_leads (snd (updateCrmLeadHandler Scenario.start_env 1 "lead-0"
                       (Bound Scenario.edited) Scenario.crm))).
Proof.
  split; [reflexivity|].
  destruct (update_lead_frame Scenario.start_env 1 "lead-0" (Bound Scenario.edited)
              Scenario.crm) as (_ & _ & _ & Hset).
  apply (Hset Scenario.edited); reflexivity.
Defined.

(** C9.  The move accepts any string as the target column: when the
    store runs the update the answer is 200 and the calling user's
    entry for the lead has that string as its column.  Whatever the
    store does, the other tables are left alone, every row of
    [crm_leads] keeps all its fields but the column, and a row that is
    not the caller's entry for the lead is not changed at all. *)
Theorem move_changes_only_column e userID input db :
  let out := updateCrmStateHandler e userID (Bound input) db in
  searches (snd out) = searches db ∧
  leads (snd out) = leads db ∧
  Forall2 (λ r r', same_but_column r r' ∧
                   (¬ entry_of userID (LeadID input) r → r' = r))
    (crm_leads db) (crm_leads (snd out)) ∧
  (exec_err e = None →
   fst out = mkResponse StatusOK (MessageBody "CRM state updated") ∧
   Forall (λ r', entry_of userID (LeadID input) r' →
             CrmLeadsRow.column_id r' = NewColumnID input)
     (crm_leads (snd out))).
Proof.
  simpl. unfold updateCrmStateHandler.
  destruct (exec_err e) as [err|]; simpl.
  - split_and!; [done|done| |done].
    apply (rows_rewritten _ id); [by rewrite list_fmap_id|]. by repeat split.
  - split_and!; [done|done| |].
    + eapply rows_rewritten; [done|]. intros r. simpl.
      destruct (Sql.crm_where userID (LeadID input) r) eqn:Hwhere; [|by repeat split].
      split; [by repeat split|]. intros []. by apply crm_where_entry.
    + intros _. split; [done|]. apply Forall_fmap, Forall_forall. intros r Hr. simpl.
      destruct (Sql.crm_where userID (LeadID input) r) eqn:Hwhere; [done|].
      intros Hentry%crm_where_entry. by rewrite Hentry in Hwhere.
Qed.

Lemma move_changes_only_column_witness :
  updateCrmStateHandler Scenario.start_env 2 (Bound (mkStateInput "lead-0" "no such column"))
    Scenario.crm =
  (mkResponse StatusOK (MessageBody "CRM state updated"),
   mkDB [Scenario.completed_row] [Scenario.acme_row]
     [Scenario.acme_entry;
      CrmLeadsRow.with_column "no such column" Scenario.other_entry]).
Proof.
  destruct (move_changes_only_column Scenario.start_env 2
              (mkStateInput "lead-0" "no such column") Scenario.crm)
    as (_ & _ & _ & Hmoved).
  destruct Hmoved as [Hresponse _]; reflexivity.
Defined.

(** * More on the job lifecycle *)

Lemma startSearchHandler_rows e userID input db resp db' job :
  startSearchHandler e userID input db = (resp, db', job) →
  leads db' = leads db ∧ crm_leads db' = crm_leads db ∧
  ((db' = db ∧ job = None ∧ code resp ≠ StatusAccepted) ∨
   ∃ s row, job = Some s ∧ code resp = StatusAccepted ∧ body resp = SearchBody s ∧
     searches db' = searches db ++ [row] ∧
     (Search.ID s ∉ search_ids db) ∧
     SearchesRow.id row = Search.ID s ∧ SearchesRow.user_id row = userID ∧
     SearchesRow.status row = "In Progress" ∧ SearchesRow.leads_found row = Some 0%Z).
Proof.
  unfold startSearchHandler. intros Hstart.
  destruct input as [msg|keyword]; [simplify_eq; split_and!; try done; by left|].
  case_bool_decide; [simplify_eq; split_and!; try done; by left|].
  unfold run_stmt, Sql.insert_search in Hstart. simpl in Hstart.
  destruct (exec_err e); [simplify_eq; split_and!; try done; by left|].
  case_bool_decide as Hfresh; [simplify_eq; split_and!; try done; by left|].
  simplify_eq. split_and!; try done. right. eexists _, _. by split_and!.
Qed.

(** Lead rows exist for Completed jobs only. *)
Lemma lead_job_completed sys l r :
  invariant sys → l ∈ leads (store sys) → r ∈ searches (store sys) →
  SearchesRow.id r = LeadsRow.search_id l → SearchesRow.status r = "Completed".
Proof.
  intros Hinv Hl Hr Hid.
  destruct (decide (SearchesRow.status r = "Completed")) as [|Hst]; [done|].
  destruct (inv_others _ Hinv r Hr Hst) as [Hzero _].
  unfold count_leads, Sql.select_leads in Hzero.
  apply length_zero_iff_nil in Hzero.
  exfalso. eapply filter_nil_not_elem_of; [exact Hzero| |exact Hl]. done.
Qed.

(** X1.  In every state the system can reach, a Lead row references a
    job that exists and that is Completed: no lead is ever stored for a
    job that is in progress or that has failed. *)
Theorem leads_only_of_completed_jobs sys l :
  reachable sys → l ∈ leads (store sys) →
  LeadsRow.search_id l ∈ search_ids (store sys) ∧
  ∀ r, r ∈ searches (store sys) → SearchesRow.id r = LeadsRow.search_id l →
       SearchesRow.status r = "Completed".
Proof.
  intros Hinv%invariant_reachable Hl. split.
  - by apply (inv_leads_job _ Hinv).
  - intros r Hr Hid. by eapply lead_job_completed.
Qed.

Lemma leads_only_of_completed_jobs_witness :
  LeadsRow.search_id Scenario.acme_row ∈ search_ids Scenario.completed ∧
  ∀ r, r ∈ searches Scenario.completed →
       SearchesRow.id r = LeadsRow.search_id Scenario.acme_row →
       SearchesRow.status r = "Completed".
Proof.
  apply (leads_only_of_completed_jobs (mkSystem Scenario.completed [])).
  - apply scenario_completed.
  - by left.
Defined.

(** The rows of a job that is not running are not touched by a step,
    and the job does not start running again. *)
Lemma idle_job_step sys sys' searchID :
  invariant sys → step sys sys' →
  searchID ∈ search_ids (store sys) → searchID ∉ Search.ID <$> running sys →
  (searchID ∉ Search.ID <$> running sys') ∧
  ∀ i r, searches (store sys) !! i = Some r → SearchesRow.id r = searchID →
         searches (store sys') !! i = Some r.
Proof.
  intros Hinv Hstep Hrow Hidle. destruct Hstep as
    [db run e userID input resp db' job Hstart|db run1 search run2 e r| | |]; simpl in *.
  - apply startSearchHandler_rows in Hstart as (_ & _ & Hcases).
    destruct Hcases as [(-> & -> & _)|(s & row & -> & _ & _ & Hrows & Hfresh & _)].
    + simpl. by rewrite app_nil_r.
    + split.
      * rewrite fmap_app. intros [?| ->%list_elem_of_singleton]%elem_of_app; done.
      * intros i r0 Hi _. rewrite Hrows. by apply lookup_app_l_Some.
  - assert (Hne : searchID ≠ Search.ID search).
    { intros ->. apply Hidle. rewrite fmap_app, fmap_cons.
      apply elem_of_app. right. by left. }
    split.
    + intros Hin. apply Hidle. rewrite fmap_app, fmap_cons.
      rewrite fmap_app in Hin. apply elem_of_app in Hin as [?|?];
        apply elem_of_app; [by left|right; by right].
    + intros i r0 Hi Hid.
      destruct (runScraper_outcome e r search db) as [| |input scrapedLeads _ _];
        [done| |]; simpl; rewrite list_lookup_fmap, Hi; simpl;
        by rewrite bool_decide_eq_false_2 by by rewrite Hid.
  - split; [done|]. intros i r0 Hi _.
    by rewrite (proj1 (addLeadsToCrmHandler_frame e userID input db)).
  - split; [done|]. intros i r0 Hi _.
    by rewrite (proj1 (updateCrmStateHandler_frame e userID input db)).
  - split; [done|]. intros i r0 Hi _.
    by rewrite (proj1 (updateCrmLeadHandler_frame e userID leadID input db)).
Qed.

Lemma search_ids_step sys sys' searchID :
  step sys sys' → searchID ∈ search_ids (store sys) → searchID ∈ search_ids (store sys').
Proof.
  intros Hstep Hrow. destruct Hstep as
    [db run e userID input resp db' job Hstart|db run1 search run2 e r| | |]; simpl in *.
  - apply startSearchHandler_rows in Hstart as (_ & _ & Hcases).
    destruct Hcases as [(-> & _)|(s & row & _ & _ & _ & Hrows & _)]; [done|].
    unfold search_ids. rewrite Hrows, fmap_app. apply elem_of_app. by left.
  - unfold search_ids in *.
    destruct (runScraper_outcome e r search db) as [| |input scrapedLeads _ _];
      [done| |]; simpl; by rewrite ids_fmap by (intros; by case_bool_decide).
  - unfold search_ids. by rewrite (proj1 (addLeadsToCrmHandler_frame e userID input db)).
  - unfold search_ids. by rewrite (proj1 (updateCrmStateHandler_frame e userID input db)).
  - unfold search_ids.
    by rewrite (proj1 (updateCrmLeadHandler_frame e userID leadID input db)).
Qed.

Lemma idle_job_steps sys sys' searchID :
  invariant sys → rtc step sys sys' →
  searchID ∈ search_ids (store sys) → searchID ∉ Search.ID <$> running sys →
  ∀ i r, searches (store sys) !! i = Some r → SearchesRow.id r = searchID →
         searches (store sys') !! i = Some r.
Proof.
  intros Hinv Hsteps. revert Hinv.
  induction Hsteps as [sys|sys sys1 sys' Hstep Hsteps IH]; intros Hinv Hrow Hidle i r Hi Hid;
    [done|].
  destruct (idle_job_step _ _ _ Hinv Hstep Hrow Hidle) as [Hidle1 Hrows1].
  apply IH; [by eapply invariant_step|by eapply search_ids_step|done| |done].
  by apply Hrows1.
Qed.

(** X2.  A terminal status is final: once a row of a job reads
    Completed or Failed in a state the system can reach, no later
    step changes that row, whatever else happens to the tables. *)
Theorem terminal_status_is_final sys sys' i r :
  reachable sys → rtc step sys sys' →
  searches (store sys) !! i = Some r → terminal r →
  searches (store sys') !! i = Some r.
Proof.
  intros Hinv%invariant_reachable Hsteps Hi Hterminal.
  apply (idle_job_steps sys sys' (SearchesRow.id r)); try done.
  - apply list_elem_of_fmap. exists r. split; [done|]. by eapply list_elem_of_lookup_2.
  - intros (s & Hid & Hs)%list_elem_of_fmap.
    pose proof (inv_running_status _ Hinv s r Hs
                  (list_elem_of_lookup_2 _ _ _ Hi) Hid) as Hst.
    destruct Hterminal as [Hc|Hf]; rewrite Hst in *; discriminate.
Qed.

Lemma terminal_status_is_final_witness :
  searches (snd (addLeadsToCrmHandler Scenario.start_env 1 (Bound [Scenario.acme_lead])
                   Scenario.failed)) !! 0 = Some Scenario.failed_row.
Proof.
  apply (terminal_status_is_final (mkSystem Scenario.failed [])
           (mkSystem (snd (addLeadsToCrmHandler Scenario.start_env 1
                             (Bound [Scenario.acme_lead]) Scenario.failed)) [])
           0 Scenario.failed_row).
  - apply scenario_failed.
  - apply rtc_once, step_add.
  - reflexivity.
  - by right.
Defined.

(** ** Primary keys *)

Lemma insert_loop_lead_ids e searchID scrapedLeads : ∀ i tx tx',
  insert_loop e searchID scrapedLeads i tx = Some tx' →
  NoDup (lead_ids tx) → NoDup (lead_ids tx').
Proof.
  induction scrapedLeads as [|sl rest IH]; intros i tx tx' Hloop Hnd; simpl in *.
  - by injection Hloop as <-.
  - unfold run_stmt, Sql.insert_lead in Hloop.
    destruct (stmt_err e i); [done|].
    case_bool_decide as Hfresh; [done|].
    apply IH in Hloop; [done|]. unfold lead_ids. simpl. rewrite fmap_app.
    apply NoDup_app. split_and!; [done| |apply NoDup_singleton].
    intros x Hx ->%list_elem_of_singleton. by apply Hfresh.
Qed.

Lemma updateSearchStatus_keys e searchID status db :
  search_ids (updateSearchStatus e searchID status db) = search_ids db ∧
  leads (updateSearchStatus e searchID status db) = leads db ∧
  crm_leads (updateSearchStatus e searchID status db) = crm_leads db.
Proof.
  destruct (updateSearchStatus_cases e searchID status db) as [-> | ->]; [done|].
  split_and!; [|done|done]. unfold search_ids. simpl.
  by rewrite ids_fmap by (intros; by case_bool_decide).
Qed.

Lemma processScraperOutput_keys e searchID file db :
  search_ids (processScraperOutput e searchID file db) = search_ids db ∧
  crm_leads (processScraperOutput e searchID file db) = crm_leads db ∧
  (NoDup (lead_ids db) → NoDup (lead_ids (processScraperOutput e searchID file db))).
Proof.
  pose proof (updateSearchStatus_keys e searchID "Failed" db) as (Hs & Hl & Hc).
  assert (Hfailed :
    search_ids (updateSearchStatus e searchID "Failed" db) = search_ids db ∧
    crm_leads (updateSearchStatus e searchID "Failed" db) = crm_leads db ∧
    (NoDup (lead_ids db) →
     NoDup (lead_ids (updateSearchStatus e searchID "Failed" db)))).
  { split_and!; [done|done|]. unfold lead_ids. by rewrite Hl. }
  unfold processScraperOutput.
  destruct file as [input|]; [|done].
  destruct (decode_loop input []) as [scrapedLeads|]; [|done].
  destruct (begin_err e); [done|]. destruct (prepare_err e); [done|].
  destruct (insert_loop e searchID scrapedLeads 0 db) as [tx|] eqn:Hloop; [|done].
  destruct (exec_err e); [done|]. destruct (commit_err e); [done|].
  pose proof (insert_loop_rows _ _ _ _ _ _ Hloop) as Htx.
  split_and!.
  - unfold search_ids. simpl. rewrite ids_fmap by (intros; by case_bool_decide).
    by rewrite Htx.
  - simpl. by rewrite Htx.
  - intros Hnd. by apply (insert_loop_lead_ids _ _ _ _ _ _ Hloop).
Qed.

Lemma runScraper_keys e r search db :
  search_ids (runScraper e r search db) = search_ids db ∧
  crm_leads (runScraper e r search db) = crm_leads db ∧
  (NoDup (lead_ids db) → NoDup (lead_ids (runScraper e r search db))).
Proof.
  pose proof (updateSearchStatus_keys e (Search.ID search) "Failed" db) as (Hs & Hl & Hc).
  unfold runScraper.
  destruct (create_err r); [split_and!; [done|done|unfold lead_ids; by rewrite Hl]|].
  destruct (write_err r); [split_and!; [done|done|unfold lead_ids; by rewrite Hl]|].
  destruct (command_err r); [split_and!; [done|done|unfold lead_ids; by rewrite Hl]|].
  apply processScraperOutput_keys.
Qed.

Lemma add_lead_keys userID lead db :
  NoDup (crm_keys db) → NoDup (crm_keys (add_lead userID lead db)).
Proof.
  unfold add_lead, Sql.insert_or_ignore_crm_lead, Sql.crm_key_taken.
  case_bool_decide as Htaken; [done|]. intros Hnd.
  unfold crm_keys. simpl. rewrite fmap_app.
  apply NoDup_app. split_and!; [done| |apply NoDup_singleton].
  intros x Hx ->%list_elem_of_singleton. by apply Htaken.
Qed.

Lemma add_loop_keys e userID leadsToAdd : ∀ i tx tx',
  add_loop e userID leadsToAdd i tx = Some tx' →
  NoDup (crm_keys tx) → NoDup (crm_keys tx').
Proof.
  induction leadsToAdd as [|lead rest IH]; intros i tx tx' Hloop Hnd; simpl in *.
  - by injection Hloop as <-.
  - destruct (stmt_err e i); [done|].
    apply IH in Hloop; [done|]. by apply add_lead_keys.
Qed.

Lemma addLeadsToCrmHandler_keys e userID input db :
  NoDup (crm_keys db) → NoDup (crm_keys (snd (addLeadsToCrmHandler e userID input db))).
Proof.
  intros Hnd. unfold addLeadsToCrmHandler.
  destruct input as [msg|leadsToAdd]; [done|].
  destruct (begin_err e); [done|]. destruct (prepare_err e); [done|].
  destruct (add_loop e userID leadsToAdd 0 db) as [tx|] eqn:Hloop; [|done].
  simpl. destruct (commit_err e); [done|]. by eapply add_loop_keys.
Qed.

Lemma crm_keys_fmap (f : CrmLeadsRow.t → CrmLeadsRow.t) db :
  (∀ r, CrmLeadsRow.user_id (f r) = CrmLeadsRow.user_id r ∧
        CrmLeadsRow.lead_id (f r) = CrmLeadsRow.lead_id r) →
  crm_keys (mkDB (searches db) (leads db) (f <$> crm_leads db)) = crm_keys db.
Proof.
  intros Hf. unfold crm_keys. simpl. rewrite <- list_fmap_compose.
  apply list_fmap_ext. intros i r _. simpl. by destruct (Hf r) as [-> ->].
Qed.

Lemma updateCrmStateHandler_keys e userID input db :
  crm_keys (snd (updateCrmStateHandler e userID input db)) = crm_keys db.
Proof.
  unfold updateCrmStateHandler.
  destruct input as [msg|input]; [done|]. destruct (exec_err e); [done|].
  apply crm_keys_fmap. intros r. by destruct (Sql.crm_where _ _ r).
Qed.

Lemma updateCrmLeadHandler_keys e userID leadID input db :
  crm_keys (snd (updateCrmLeadHandler e userID leadID input db)) = crm_keys db.
Proof.
  unfold updateCrmLeadHandler.
  destruct input as [msg|updatedLead]; [done|]. destruct (exec_err e); [done|].
  apply crm_keys_fmap. intros r. by destruct (Sql.crm_where _ _ r).
Qed.

Lemma keys_step sys sys' :
  step sys sys' →
  NoDup (search_ids (store sys)) ∧ NoDup (lead_ids (store sys)) ∧
    NoDup (crm_keys (store sys)) →
  NoDup (search_ids (store sys')) ∧ NoDup (lead_ids (store sys')) ∧
    NoDup (crm_keys (store sys')).
Proof.
  intros Hstep (Hs & Hl & Hc). destruct Hstep as
    [db run e userID input resp db' job Hstart|db run1 search run2 e r
    |db run e userID input|db run e userID input|db run e userID leadID input];
    simpl in *.
  - apply startSearchHandler_rows in Hstart as (Hleads & Hcrm & Hcases).
    unfold lead_ids, crm_keys. rewrite Hleads, Hcrm. split_and!; [|done|done].
    destruct Hcases as [(-> & _)|(s & row & _ & _ & _ & Hrows & Hfresh & Hid & _)];
      [done|].
    unfold search_ids. rewrite Hrows, fmap_app.
    apply NoDup_app. split_and!; [done| |apply NoDup_singleton].
    intros x Hx ->%list_elem_of_singleton. simpl in Hx. rewrite Hid in Hx.
    by apply Hfresh.
  - destruct (runScraper_keys e r search db) as (Hs' & Hc' & Hl').
    rewrite Hs'. unfold crm_keys. rewrite Hc'. split_and!; [done|by apply Hl'|done].
  - destruct (addLeadsToCrmHandler_frame e userID input db) as [Hs' Hl'].
    unfold search_ids, lead_ids. rewrite Hs', Hl'.
    split_and!; [done|done|]. by apply addLeadsToCrmHandler_keys.
  - destruct (updateCrmStateHandler_frame e userID input db) as [Hs' Hl'].
    unfold search_ids, lead_ids. rewrite Hs', Hl'.
    split_and!; [done|done|]. by rewrite updateCrmStateHandler_keys.
  - destruct (updateCrmLeadHandler_frame e userID leadID input db) as [Hs' Hl'].
    unfold search_ids, lead_ids. rewrite Hs', Hl'.
    split_and!; [done|done|]. by rewrite updateCrmLeadHandler_keys.
Qed.

Lemma keys_reachable sys :
  reachable sys →
  NoDup (search_ids (store sys)) ∧ NoDup (lead_ids (store sys)) ∧
  NoDup (crm_keys (store sys)).
Proof.
  unfold reachable. intros Hreach.
  refine (rtc_ind_r (λ sys, NoDup (search_ids (store sys)) ∧
                            NoDup (lead_ids (store sys)) ∧
                            NoDup (crm_keys (store sys))) initial _ _ sys Hreach).
  - split_and!; apply NoDup_nil_2.
  - intros y z _ Hstep IH. by eapply keys_step.
Qed.

(** X3.  In every state the system can reach the three primary keys
    hold: no two Search Job rows share an id, no two Lead rows share
    an id, and no two CRM entries share a (user, lead) pair. *)
Theorem primary_keys_unique sys :
  reachable sys →
  NoDup (search_ids (store sys)) ∧ NoDup (lead_ids (store sys)) ∧
  NoDup (crm_keys (store sys)).
Proof. apply keys_reachable. Qed.

Lemma primary_keys_unique_witness :
  NoDup (search_ids Scenario.completed) ∧ NoDup (lead_ids Scenario.completed) ∧
  NoDup (crm_keys Scenario.completed).
Proof.
  apply (primary_keys_unique (mkSystem Scenario.completed [])), scenario_completed.
Defined.

(** ** What a background run touches *)

Lemma job_rows_rewritten (f : SearchesRow.t → SearchesRow.t) searchID rows :
  (∀ r, same_job r (f r) ∧ (SearchesRow.id r ≠ searchID → f r = r)) →
  Forall2 (λ r r', same_job r r' ∧ (SearchesRow.id r ≠ searchID → r' = r))
    rows (f <$> rows).
Proof. intros Hf. by eapply rows_rewritten. Qed.

(** X4.  A background run touches nothing but its own job: the CRM
    entries are left alone, every Search Job row keeps its id, owner,
    keyword and creation time, the rows of other jobs are not changed
    at all, and the only Lead rows that appear are appended at the end
    and reference the job of the run.  When such rows appear, the rows
    of the job read Completed with their number as found-count. *)
Theorem run_touches_its_job_only e r search db :
  crm_leads (runScraper e r search db) = crm_leads db ∧
  Forall2 (λ r0 r', same_job r0 r' ∧ (SearchesRow.id r0 ≠ Search.ID search → r' = r0))
    (searches db) (searches (runScraper e r search db)) ∧
  ∃ new,
    leads (runScraper e r search db) = leads db ++ new ∧
    Forall (λ l, LeadsRow.search_id l = Search.ID search) new ∧
    (new ≠ [] →
     Forall (λ r', SearchesRow.id r' = Search.ID search →
                   SearchesRow.status r' = "Completed" ∧
                   SearchesRow.leads_found r' = Some (Z.of_nat (length new)))
       (searches (runScraper e r search db))).
Proof.
  destruct (runScraper_outcome e r search db) as [| |input scrapedLeads _ _]; simpl.
  - split_and!; [done|apply (rows_rewritten _ id); [by rewrite list_fmap_id|done]|].
    exists []. rewrite app_nil_r. by split_and!.
  - split_and!; [done| |].
    + apply job_rows_rewritten. intros r0. by case_bool_decide.
    + exists []. rewrite app_nil_r. by split_and!.
  - split_and!; [done| |].
    + apply job_rows_rewritten. intros r0. by case_bool_decide.
    + exists (imported_rows e (Search.ID search) scrapedLeads 0).
      split_and!; [done| |].
      * apply Forall_forall. intros l. apply imported_rows_job.
      * intros _. apply Forall_fmap, Forall_forall. intros r0 _. simpl.
        case_bool_decide; [|done]. intros _. by rewrite imported_rows_length.
Qed.

(** X5.  When the last statement of the import transaction (the
    update of the job row) is refused by the store, the run leaves the
    tables exactly as they were: the job is marked neither Completed
    nor Failed, and since its run is over its rows stay as they are,
    "In Progress", through every later step of the system. *)
Theorem refused_final_update_strands_job e r search run1 run2 db input scrapedLeads tx err :
  reachable (mkSystem db (run1 ++ search :: run2)) →
  create_err r = None → write_err r = None → command_err r = None →
  output_file r = Some input → decode_loop input [] = Some scrapedLeads →
  begin_err e = None → prepare_err e = None →
  insert_loop e (Search.ID search) scrapedLeads 0 db = Some tx →
  exec_err e = Some err →
  runScraper e r search db = db ∧
  ∀ sys', rtc step (mkSystem (runScraper e r search db) (run1 ++ run2)) sys' →
    ∀ i r0, searches db !! i = Some r0 → SearchesRow.id r0 = Search.ID search →
            SearchesRow.status r0 = "In Progress" ∧
            searches (store sys') !! i = Some r0.
Proof.
  intros Hreach Hcreate Hwrite Hcommand Hfile Hdec Hbegin Hprepare Hloop Hexec.
  assert (Hrun : runScraper e r search db = db).
  { unfold runScraper, processScraperOutput.
    by rewrite Hcreate, Hwrite, Hcommand, Hfile, Hdec, Hbegin, Hprepare, Hloop, Hexec. }
  split; [done|]. rewrite Hrun. intros sys' Hsteps i r0 Hi Hid.
  pose proof (invariant_reachable _ Hreach) as Hinv.
  assert (Hin : search ∈ run1 ++ search :: run2).
  { apply elem_of_app. right. by left. }
  split.
  - apply (inv_running_status _ Hinv search r0 Hin); [|done].
    by eapply list_elem_of_lookup_2.
  - assert (Hinv' : invariant (mkSystem db (run1 ++ run2))).
    { rewrite <- Hrun. eapply invariant_run; [done|]. apply (runScraper_outcome e r). }
    apply (idle_job_steps (mkSystem db (run1 ++ run2)) sys' (Search.ID search));
      try done.
    + apply (inv_running_row _ Hinv search Hin).
    + simpl. intros (s & Heq & Hs)%list_elem_of_fmap.
      destruct (running_without search run1 run2 s (inv_running_nodup _ Hinv) Hs)
        as [_ Hne]. by rewrite Heq in Hne.
Qed.

Lemma refused_final_update_strands_job_witness :
  runScraper Example.exec_fails (Scenario.run_with Scenario.acme_object_input)
    Scenario.new_search Scenario.started = Scenario.started.
Proof.
  destruct (refused_final_update_strands_job Example.exec_fails
              (Scenario.run_with Scenario.acme_object_input) Scenario.new_search [] []
              Scenario.started Scenario.acme_object_input [Scenario.acme]
              (mkDB (searches Scenario.started) [Scenario.acme_row] [])
              "disk I/O error" scenario_started eq_refl eq_refl eq_refl eq_refl
              eq_refl eq_refl eq_refl eq_refl eq_refl) as [Hrun _].
  exact Hrun.
Defined.

(** X6.  [startSearchHandler] hands a job to a background run exactly
    when it answers Accepted; with any other answer (a body that does
    not bind, an empty keyword, an insert that the store refuses) the
    tables are left as they were.  It never touches Lead rows or CRM
    entries, and the job it hands over has a row of its own, owned by
    the caller and "In Progress". *)
Theorem start_spawns_iff_accepted e userID input db :
  let out := startSearchHandler e userID input db in
  (is_Some (snd out) ↔ code (fst (fst out)) = StatusAccepted) ∧
  (code (fst (fst out)) ≠ StatusAccepted → snd (fst out) = db) ∧
  leads (snd (fst out)) = leads db ∧
  crm_leads (snd (fst out)) = crm_leads db ∧
  (∀ s, snd out = Some s →
     Search.UserID s = userID ∧
     ∃ row, searches (snd (fst out)) = searches db ++ [row] ∧
            SearchesRow.id row = Search.ID s ∧ SearchesRow.user_id row = userID ∧
            SearchesRow.status row = "In Progress").
Proof.
  simpl. destruct (startSearchHandler e userID input db) as [[resp db'] job] eqn:Hstart.
  simpl.
  assert (Huser : ∀ s, job = Some s → Search.UserID s = userID).
  { intros s ->. unfold startSearchHandler in Hstart.
    destruct input as [msg|keyword]; [done|]. case_bool_decide; [done|].
    destruct (run_stmt _ _ _ _); by simplify_eq. }
  apply startSearchHandler_rows in Hstart as (Hleads & Hcrm & Hcases).
  destruct Hcases as [(-> & -> & Hcode)
                     |(s & row & -> & Hcode & _ & Hrows & _ & Hid & Hu & Hst & _)].
  - split; [split; [by intros [? ?]|done]|]. by split_and!.
  - split; [split; [done|by eexists]|]. split_and!; try done.
    intros s' [= <-]. split; [by apply Huser|]. by exists row.
Qed.

Lemma start_spawns_iff_accepted_witness :
  snd (fst (startSearchHandler Scenario.start_env 1 (Bound "") Scenario.completed)) =
  Scenario.completed.
Proof.
  destruct (start_spawns_iff_accepted Scenario.start_env 1 (Bound "") Scenario.completed)
    as (_ & Hsame & _).
  apply Hsame. discriminate.
Defined.

(** * The list of a user's jobs *)

#[local] Instance not_older_total : Total not_older.
Proof.
  intros r1 r2. unfold not_older.
  destruct (SearchesRow.created_at r1), (SearchesRow.created_at r2); simpl; auto; lia.
Qed.

#[local] Instance not_older_trans : Transitive not_older.
Proof.
  intros r1 r2 r3. unfold not_older.
  destruct (SearchesRow.created_at r1), (SearchesRow.created_at r2),
    (SearchesRow.created_at r3); simpl; auto; try done; lia.
Qed.




(** * Listing what was imported *)

Lemma filter_fmap_preserved {A : Type} (P : A → Prop) `{!∀ x, Decision (P x)}
    (f : A → A) (l : list A) :
  (∀ x, P (f x) ↔ P x) → filter P (f <$> l) = f <$> filter P l.
Proof.
  intros Hf. induction l as [|x l IH]; [done|].
  rewrite fmap_cons, !filter_cons, IH.
  destruct (decide (P (f x))) as [HP|HP], (decide (P x)) as [HP'|HP']; try done.
  - destruct HP'. by apply Hf.
  - destruct HP. by apply Hf.
Qed.





(** * The CRM board *)

Lemma board_fold_leads rows : ∀ acc,
  (foldl crm_row_step acc rows).1 = board_leads rows ∪ acc.1.
Proof.
  unfold board_leads.
  induction rows as [|r rows IH]; intros acc; simpl.
  - by rewrite (left_id_L ∅ (∪)).
  - rewrite IH. simpl. rewrite reverse_cons, list_to_map_app. simpl.
    rewrite <- (assoc_L (∪)). f_equal.
    by rewrite insert_union_singleton_l.
Qed.

Lemma board_fold_columns rows : ∀ acc column,
  (foldl crm_row_step acc rows).2 !! column =
  (λ ids, ids ++ column_ids column rows) <$> (acc.2 !! column).
Proof.
  unfold column_ids.
  induction rows as [|r rows IH]; intros acc column; simpl.
  - destruct (acc.2 !! column); simpl; [by rewrite app_nil_r|done].
  - rewrite IH. simpl. rewrite filter_cons.
    destruct (decide (CrmLeadsRow.column_id r = column)) as [<-|Hne].
    + destruct (acc.2 !! CrmLeadsRow.column_id r) as [ids|] eqn:Hids.
      * rewrite lookup_insert_eq. simpl. by rewrite <- app_assoc.
      * by rewrite Hids.
    + destruct (acc.2 !! CrmLeadsRow.column_id r) as [ids|]; [|done].
      by rewrite lookup_insert_ne.
Qed.

Lemma board_of_rows e userID db :
  query_err e 0 = None → rows_err e = None →
  getCrmHandler e userID db =
  mkResponse StatusOK
    (CrmBody (board_leads (Sql.select_crm_leads userID db))
       (column_ids "tobe-called" (Sql.select_crm_leads userID db))
       (column_ids "contacted" (Sql.select_crm_leads userID db))).
Proof.
  intros Hquery Hrows. unfold getCrmHandler. rewrite Hquery, Hrows.
  pose proof (board_fold_leads (Sql.select_crm_leads userID db)
                (∅, <["tobe-called" := []]> (<["contacted" := []]> ∅))) as Hleads.
  pose proof (board_fold_columns (Sql.select_crm_leads userID db)
                (∅, <["tobe-called" := []]> (<["contacted" := []]> ∅))) as Hcolumns.
  destruct (foldl crm_row_step _ (Sql.select_crm_leads userID db))
    as [crmLeads columns]. simpl in *.
  rewrite Hleads, (right_id_L ∅ (∪)), !Hcolumns. done.
Qed.

Lemma user_rows_nodup userID rows :
  NoDup ((λ r, (CrmLeadsRow.user_id r, CrmLeadsRow.lead_id r)) <$> rows) →
  NoDup (CrmLeadsRow.lead_id <$> filter (λ r, CrmLeadsRow.user_id r = userID) rows).
Proof.
  induction rows as [|r rows IH]; [constructor|].
  rewrite fmap_cons. intros [Hnew Hnd]%NoDup_cons.
  rewrite filter_cons. case_decide as Hu; [|by apply IH].
  rewrite fmap_cons. apply NoDup_cons. split; [|by apply IH].
  intros (r' & Hid & [Hu' Hr']%list_elem_of_filter)%list_elem_of_fmap.
  apply Hnew, list_elem_of_fmap. exists r'. split; [|done].
  by rewrite Hid, Hu, Hu'.
Qed.

Lemma board_leads_lookup rows r :
  NoDup (CrmLeadsRow.lead_id <$> rows) → r ∈ rows →
  board_leads rows !! CrmLeadsRow.lead_id r = Some (scan_crm_lead r).
Proof.
  intros Hnd Hr. unfold board_leads. apply elem_of_list_to_map.
  - rewrite reverse_Permutation, <- list_fmap_compose. done.
  - apply elem_of_reverse.
    by apply (list_elem_of_fmap_2 (λ r, (CrmLeadsRow.lead_id r, scan_crm_lead r))).
Qed.

Lemma column_ids_sorted column rows :
  StronglySorted Sql.by_lead_id rows → StronglySorted String.le (column_ids column rows).
Proof.
  unfold column_ids.
  induction 1 as [|r rows Hsorted IH Hall]; [constructor|].
  rewrite filter_cons. case_decide; [|done].
  rewrite fmap_cons. constructor; [done|]. apply Forall_forall.
  intros k (r' & -> & [_ Hr']%list_elem_of_filter)%list_elem_of_fmap.
  rewrite Forall_forall in Hall. by apply Hall.
Qed.

Lemma column_ids_entries userID column db :
  column_ids column (Sql.select_crm_leads userID db) ≡ₚ column_entries userID column db.
Proof.
  unfold column_ids, column_entries.
  by rewrite select_crm_leads_Permutation, list_filter_filter.
Qed.

(** X9.  When the store answers, the board that [getCrmHandler]
    returns lists under "tobe-called" the lead ids of the caller's
    entries that stand in that column and likewise under "contacted",
    each of them once and each list sorted by lead id: the query has
    no [ORDER BY], and the entries come in the order of the primary
    key, whatever the order in which they were added.  An entry in any
    other column is in neither list.  Where the primary key of the
    table holds, the [leads] object holds every entry of the caller
    under the lead's id. *)
Theorem board_lists_entries_by_column e userID db :
  query_err e 0 = None → rows_err e = None →
  ∃ crmLeads tobe_called contacted,
    getCrmHandler e userID db =
      mkResponse StatusOK (CrmBody crmLeads tobe_called contacted) ∧
    tobe_called ≡ₚ column_entries userID "tobe-called" db ∧
    StronglySorted String.le tobe_called ∧
    contacted ≡ₚ column_entries userID "contacted" db ∧
    StronglySorted String.le contacted ∧
    (NoDup (crm_keys db) →
     ∀ r, r ∈ crm_leads db → CrmLeadsRow.user_id r = userID →
          crmLeads !! CrmLeadsRow.lead_id r = Some (scan_crm_lead r)).
Proof.
  intros Hquery Hrows. eexists _, _, _. split; [by apply board_of_rows|].
  split_and!.
  - apply column_ids_entries.
  - apply column_ids_sorted, order_by_sorted; apply _.
  - apply column_ids_entries.
  - apply column_ids_sorted, order_by_sorted; apply _.
  - intros Hnd r Hr Hu. apply board_leads_lookup.
    + rewrite select_crm_leads_Permutation. by apply user_rows_nodup.
    + by apply elem_of_select_crm_leads.
Qed.

Lemma board_lists_entries_by_column_witness :
  ∃ crmLeads tobe_called contacted,
    getCrmHandler Scenario.start_env 1 Example.board =
      mkResponse StatusOK (CrmBody crmLeads tobe_called contacted) ∧
    tobe_called ≡ₚ ["zeta"; "alpha"] ∧
    StronglySorted String.le tobe_called ∧
    contacted ≡ₚ ["mid"] ∧
    StronglySorted String.le contacted ∧
    (NoDup (crm_keys Example.board) →
     ∀ r, r ∈ crm_leads Example.board → CrmLeadsRow.user_id r = 1%Z →
          crmLeads !! CrmLeadsRow.lead_id r = Some (scan_crm_lead r)).
Proof.
  apply (board_lists_entries_by_column Scenario.start_env 1 Example.board); reflexivity.
Defined.

Lemma select_crm_leads_moved column userID leadID db :
  Sql.select_crm_leads userID (Sql.update_crm_column column userID leadID db) =
  (λ r, if bool_decide (CrmLeadsRow.lead_id r = leadID)
        then CrmLeadsRow.with_column column r else r) <$> Sql.select_crm_leads userID db.
Proof.
  transitivity ((λ r, if Sql.crm_where userID leadID r
                      then CrmLeadsRow.with_column column r else r) <$>
                Sql.select_crm_leads userID db).
  - unfold Sql.select_crm_leads. simpl.
    rewrite filter_fmap_preserved by (intros r; by destruct (Sql.crm_where _ _ r)).
    apply order_by_fmap. intros r1 r2. unfold Sql.by_lead_id.
    by destruct (Sql.crm_where _ _ r1), (Sql.crm_where _ _ r2).
  - apply list_fmap_ext. intros i r Hr%list_elem_of_lookup_2.
    apply elem_of_select_crm_leads in Hr as [Hu _].
    unfold Sql.crm_where. by rewrite (bool_decide_eq_true_2 _ Hu).
Qed.

Lemma column_ids_elem column rows k :
  k ∈ column_ids column rows ↔
  ∃ r, r ∈ rows ∧ CrmLeadsRow.lead_id r = k ∧ CrmLeadsRow.column_id r = column.
Proof.
  unfold column_ids. rewrite list_elem_of_fmap. split.
  - intros (r & -> & [Hc Hr]%list_elem_of_filter). by exists r.
  - intros (r & Hr & <- & Hc). exists r. split; [done|]. by apply list_elem_of_filter.
Qed.

Lemma column_ids_moved column target userID leadID db k :
  k ∈ column_ids column
        (Sql.select_crm_leads userID (Sql.update_crm_column target userID leadID db)) ↔
  if bool_decide (k = leadID)
  then Sql.crm_key_taken userID leadID db = true ∧ target = column
  else k ∈ column_ids column (Sql.select_crm_leads userID db).
Proof.
  rewrite select_crm_leads_moved, column_ids_elem.
  case_bool_decide as Hk.
  - subst k. split.
    + intros (r' & (r & -> & [Hu Hr]%elem_of_select_crm_leads)%list_elem_of_fmap & Hid & Hc).
      assert (Hl : CrmLeadsRow.lead_id r = leadID) by (revert Hid; by case_bool_decide).
      rewrite (bool_decide_eq_true_2 _ Hl) in Hc. split; [|done].
      apply crm_key_taken_entry. by exists r.
    + intros [(r & Hr & Hu & Hl)%crm_key_taken_entry <-].
      exists (CrmLeadsRow.with_column target r). split_and!; [|done|done].
      apply list_elem_of_fmap. exists r.
      split; [by rewrite bool_decide_eq_true_2|]. by apply elem_of_select_crm_leads.
  - rewrite column_ids_elem. split.
    + intros (r' & (r & -> & Hr)%list_elem_of_fmap & Hid & Hc). exists r.
      case_bool_decide as Hl; [|done]. simpl in *. by rewrite Hl in Hid.
    + intros (r & Hr & Hid & Hc). exists r. split_and!; [|done|done].
      apply list_elem_of_fmap. exists r. split; [|done].
      by rewrite bool_decide_eq_false_2 by (by rewrite Hid).
Qed.

(** X10.  After a move that the store has run, the next board lists
    the moved lead under the target column and under no other: under
    "tobe-called" exactly when that is the target, under "contacted"
    exactly when that is the target, and under neither when the target
    is any other string; the lead is still in the [leads] object.  The
    places of the caller's other leads are as before. *)
Theorem moved_lead_on_the_board e e' userID input db :
  exec_err e = None → query_err e' 0 = None → rows_err e' = None →
  Sql.crm_key_taken userID (LeadID input) db = true →
  ∃ crmLeads tobe_called contacted,
    getCrmHandler e' userID (snd (updateCrmStateHandler e userID (Bound input) db)) =
      mkResponse StatusOK (CrmBody crmLeads tobe_called contacted) ∧
    is_Some (crmLeads !! LeadID input) ∧
    (LeadID input ∈ tobe_called ↔ NewColumnID input = "tobe-called") ∧
    (LeadID input ∈ contacted ↔ NewColumnID input = "contacted") ∧
    ∀ k, k ≠ LeadID input →
      (k ∈ tobe_called ↔ k ∈ column_ids "tobe-called" (Sql.select_crm_leads userID db)) ∧
      (k ∈ contacted ↔ k ∈ column_ids "contacted" (Sql.select_crm_leads userID db)).
Proof.
  intros Hexec Hquery Hrows Htaken.
  unfold updateCrmStateHandler. rewrite Hexec. simpl.
  eexists _, _, _. split; [by apply board_of_rows|].
  split_and!.
  - apply crm_key_taken_entry in Htaken as (r & Hr & Hu & Hl).
    rewrite select_crm_leads_moved. unfold board_leads.
    destruct (list_to_map _ !! LeadID input) as [cl|] eqn:Hnone; [by eexists|].
    apply not_elem_of_list_to_map in Hnone. destruct Hnone.
    rewrite reverse_Permutation, <- !list_fmap_compose.
    apply list_elem_of_fmap. exists r. split.
    + simpl. by case_bool_decide.
    + by apply elem_of_select_crm_leads.
  - rewrite column_ids_moved, bool_decide_eq_true_2 by done.
    split; [by intros [_ ?]|by intros ?].
  - rewrite column_ids_moved, bool_decide_eq_true_2 by done.
    split; [by intros [_ ?]|by intros ?].
  - intros k Hk. by rewrite !column_ids_moved, !bool_decide_eq_false_2 by done.
Qed.

Lemma moved_lead_on_the_board_witness :
  ∃ crmLeads tobe_called contacted,
    getCrmHandler Scenario.start_env 2
      (snd (updateCrmStateHandler Scenario.start_env 2
              (Bound (mkStateInput "lead-0" "contacted")) Scenario.crm)) =
      mkResponse StatusOK (CrmBody crmLeads tobe_called contacted) ∧
    is_Some (crmLeads !! "lead-0") ∧
    ("lead-0" ∈ tobe_called ↔ "contacted" = "tobe-called") ∧
    ("lead-0" ∈ contacted ↔ "contacted" = "contacted") ∧
    ∀ k, k ≠ "lead-0" →
      (k ∈ tobe_called ↔ k ∈ column_ids "tobe-called" (Sql.select_crm_leads 2 Scenario.crm)) ∧
      (k ∈ contacted ↔ k ∈ column_ids "contacted" (Sql.select_crm_leads 2 Scenario.crm)).
Proof.
  apply (moved_lead_on_the_board Scenario.start_env Scenario.start_env 2
           (mkStateInput "lead-0" "contacted") Scenario.crm); reflexivity.
Defined.

(** * Adding leads to the CRM *)

Lemma add_loop_total e userID leadsToAdd : ∀ i tx,
  (∀ k, stmt_err e k = None) → is_Some (add_loop e userID leadsToAdd i tx).
Proof.
  induction leadsToAdd as [|lead rest IH]; intros i tx Hstmt; simpl; [by eexists|].
  rewrite Hstmt. by apply IH.
Qed.

Lemma crm_entries_untaken userID leadID db :
  Sql.crm_key_taken userID leadID db = false → crm_entries userID leadID db = [].
Proof.
  intros Hfree. unfold crm_entries. apply filter_none.
  intros r Hr Hwhere%crm_where_entry.
  assert (Sql.crm_key_taken userID leadID db = true) as Htaken
    by (apply crm_key_taken_entry; by exists r).
  by rewrite Htaken in Hfree.
Qed.

Lemma add_lead_other userID lead leadID db :
  Lead.ID lead ≠ leadID →
  Sql.crm_key_taken userID leadID (add_lead userID lead db) =
  Sql.crm_key_taken userID leadID db.
Proof.
  intros Hne. unfold add_lead, Sql.insert_or_ignore_crm_lead.
  destruct (Sql.crm_key_taken userID (Lead.ID lead) db); [done|].
  unfold Sql.crm_key_taken. simpl. rewrite fmap_app.
  apply bool_decide_ext. rewrite elem_of_app. split; [|by left].
  intros [?|Hnew%list_elem_of_singleton]; [done|]. by injection Hnew as ->.
Qed.

Lemma add_loop_others e userID leadID leadsToAdd : ∀ i tx tx',
  leadID ∉ Lead.ID <$> leadsToAdd →
  add_loop e userID leadsToAdd i tx = Some tx' →
  Sql.crm_key_taken userID leadID tx' = Sql.crm_key_taken userID leadID tx.
Proof.
  induction leadsToAdd as [|lead rest IH]; intros i tx tx' Hnot Hloop; simpl in *.
  - by injection Hloop as <-.
  - destruct (stmt_err e i); [done|].
    apply not_elem_of_cons in Hnot as [Hne Hnot].
    rewrite (IH _ _ _ Hnot Hloop). by apply add_lead_other.
Qed.

Lemma add_loop_app e userID before after : ∀ i tx tx',
  add_loop e userID (before ++ after) i tx = Some tx' →
  ∃ tx1, add_loop e userID before i tx = Some tx1 ∧
         add_loop e userID after (i + length before) tx1 = Some tx'.
Proof.
  induction before as [|lead rest IH]; intros i tx tx' Hloop; simpl in *.
  - exists tx. by rewrite Nat.add_0_r.
  - destruct (stmt_err e i); [done|].
    apply IH in Hloop as (tx1 & H1 & H2). exists tx1. split; [done|].
    by rewrite <- Nat.add_succ_comm.
Qed.

(** X11.  A lead that the caller has no entry for, added by a request
    that the store runs and commits, gets exactly one entry: in column
    "tobe-called", with no notes, a call count of 0, no callback date,
    and the company name, phone, web site, email and page speed of the
    first lead with that id in the request. *)
Theorem added_lead_starts_to_be_called e userID before lead after db :
  begin_err e = None → prepare_err e = None → (∀ k, stmt_err e k = None) →
  commit_err e = None →
  Sql.crm_key_taken userID (Lead.ID lead) db = false →
  Lead.ID lead ∉ Lead.ID <$> before →
  crm_entries userID (Lead.ID lead)
    (snd (addLeadsToCrmHandler e userID (Bound (before ++ lead :: after)) db)) =
  [new_entry userID lead].
Proof.
  intros Hbegin Hprepare Hstmt Hcommit Hfree Hfirst.
  unfold addLeadsToCrmHandler. rewrite Hbegin, Hprepare.
  destruct (add_loop_total e userID (before ++ lead :: after) 0 db Hstmt) as [tx' Hloop].
  rewrite Hloop, Hcommit. simpl.
  apply add_loop_app in Hloop as (tx1 & Hbefore & Hafter). simpl in Hafter.
  rewrite Hstmt in Hafter.
  pose proof (add_loop_others _ _ _ _ _ _ _ Hfirst Hbefore) as Hfree1.
  rewrite Hfree in Hfree1.
  destruct (add_loop_entries _ _ _ _ _ _ userID (Lead.ID lead) Hafter) as [_ ->];
    [apply insert_or_ignore_takes|].
  unfold add_lead, Sql.insert_or_ignore_crm_lead. rewrite Hfree1.
  unfold crm_entries. simpl. rewrite filter_app.
  pose proof (crm_entries_untaken _ _ _ Hfree1) as Hnone. unfold crm_entries in Hnone.
  rewrite Hnone. simpl. rewrite filter_cons_True; [done|].
  by apply crm_where_entry.
Qed.

Lemma added_lead_starts_to_be_called_witness :
  crm_entries 1 "lead-1"
    (snd (addLeadsToCrmHandler Scenario.start_env 1
            (Bound [Scenario.acme_lead; Example.bolt_lead]) Scenario.crm)) =
  [new_entry 1 Example.bolt_lead].
Proof.
  apply (added_lead_starts_to_be_called Scenario.start_env 1 [Scenario.acme_lead]
           Example.bolt_lead [] Scenario.crm); try reflexivity.
  intros [Heq|Hnil]%elem_of_cons; [discriminate Heq|by apply elem_of_nil in Hnil].
Defined.

(** X12.  Bulk-adding is all or nothing, and a commit that fails goes
    unreported: whenever the answer is not 200 the table is as it was
    (an insert that fails in the middle of the request undoes the
    inserts before it), and whenever [tx.Commit] fails the table is as
    it was although the answer is still 200 "Leads added to CRM
    successfully". *)
Theorem add_leads_all_or_nothing e userID input db :
  (code (fst (addLeadsToCrmHandler e userID input db)) ≠ StatusOK →
   snd (addLeadsToCrmHandler e userID input db) = db) ∧
  (∀ err leadsToAdd,
     input = Bound leadsToAdd → commit_err e = Some err →
     begin_err e = None → prepare_err e = None → (∀ k, stmt_err e k = None) →
     addLeadsToCrmHandler e userID input db =
     (mkResponse StatusOK (MessageBody "Leads added to CRM successfully"), db)).
Proof.
  unfold addLeadsToCrmHandler. split.
  - destruct input as [msg|leadsToAdd]; [done|].
    destruct (begin_err e); [done|]. destruct (prepare_err e); [done|].
    by destruct (add_loop e userID leadsToAdd 0 db).
  - intros err leadsToAdd -> Hcommit Hbegin Hprepare Hstmt.
    rewrite Hbegin, Hprepare, Hcommit.
    by destruct (add_loop_total e userID leadsToAdd 0 db Hstmt) as [tx ->].
Qed.

Lemma add_leads_all_or_nothing_witness :
  snd (addLeadsToCrmHandler Example.second_fails 1
         (Bound [Example.bolt_lead; Scenario.acme_lead]) Scenario.crm) = Scenario.crm ∧
  addLeadsToCrmHandler Example.commit_fails 1 (Bound [Example.bolt_lead]) Scenario.crm =
  (mkResponse StatusOK (MessageBody "Leads added to CRM successfully"), Scenario.crm).
Proof.
  split.
  - apply (add_leads_all_or_nothing Example.second_fails 1
             (Bound [Example.bolt_lead; Scenario.acme_lead]) Scenario.crm).
    discriminate.
  - apply (proj2 (add_leads_all_or_nothing Example.commit_fails 1
                    (Bound [Example.bolt_lead]) Scenario.crm)
             "disk I/O error" [Example.bolt_lead]); reflexivity.
Defined.

(** * One user's CRM and another's *)

Lemma getCrmHandler_rows e userID db db' :
  Sql.select_crm_leads userID db' = Sql.select_crm_leads userID db →
  getCrmHandler e userID db' = getCrmHandler e userID db.
Proof. unfold getCrmHandler. by intros ->. Qed.

Lemma add_loop_other_user e userID other leadsToAdd : ∀ i tx tx',
  other ≠ userID →
  add_loop e userID leadsToAdd i tx = Some tx' →
  Sql.select_crm_leads other tx' = Sql.select_crm_leads other tx.
Proof.
  induction leadsToAdd as [|lead rest IH]; intros i tx tx' Hne Hloop; simpl in *.
  - by injection Hloop as <-.
  - destruct (stmt_err e i); [done|].
    rewrite (IH _ _ _ Hne Hloop).
    unfold add_lead, Sql.insert_or_ignore_crm_lead, Sql.select_crm_leads.
    destruct (Sql.crm_key_taken _ _ _); [done|]. simpl.
    rewrite filter_app, filter_cons_False, filter_nil, app_nil_r; [done|].
    simpl. by intros ->.
Qed.

Lemma update_other_user (f : CrmLeadsRow.t → CrmLeadsRow.t) userID leadID other db :
  (∀ r, CrmLeadsRow.user_id (f r) = CrmLeadsRow.user_id r) →
  other ≠ userID →
  Sql.select_crm_leads other
    (mkDB (searches db) (leads db)
       ((λ r, if Sql.crm_where userID leadID r then f r else r) <$> crm_leads db)) =
  Sql.select_crm_leads other db.
Proof.
  intros Hf Hne. unfold Sql.select_crm_leads. simpl. f_equal.
  induction (crm_leads db) as [|r rows IH]; [done|].
  rewrite fmap_cons, !filter_cons, IH.
  destruct (Sql.crm_where userID leadID r) eqn:Hwhere; [|done].
  apply crm_where_entry in Hwhere as [Hu _].
  rewrite !decide_False; [done|by rewrite Hu; intros ->|].
  rewrite Hf, Hu. by intros ->.
Qed.

(** X13.  The CRM of one user is out of reach of another: whatever a
    user adds, moves or edits, and whatever the store does meanwhile,
    the board that any other user fetches is the same as before. *)
Theorem other_users_board_unchanged e e' userID other db :
  other ≠ userID →
  (∀ input, getCrmHandler e' other (snd (addLeadsToCrmHandler e userID input db)) =
            getCrmHandler e' other db) ∧
  (∀ input, getCrmHandler e' other (snd (updateCrmStateHandler e userID input db)) =
            getCrmHandler e' other db) ∧
  (∀ leadID input,
     getCrmHandler e' other (snd (updateCrmLeadHandler e userID leadID input db)) =
     getCrmHandler e' other db).
Proof.
  intros Hne. split_and!.
  - intros input. apply getCrmHandler_rows. unfold addLeadsToCrmHandler.
    destruct input as [msg|leadsToAdd]; [done|].
    destruct (begin_err e); [done|]. destruct (prepare_err e); [done|].
    destruct (add_loop e userID leadsToAdd 0 db) as [tx|] eqn:Hloop; [|done].
    simpl. destruct (commit_err e); [done|]. by eapply add_loop_other_user.
  - intros input. apply getCrmHandler_rows. unfold updateCrmStateHandler.
    destruct input as [msg|input]; [done|]. destruct (exec_err e); [done|].
    by apply update_other_user.
  - intros leadID input. apply getCrmHandler_rows. unfold updateCrmLeadHandler.
    destruct input as [msg|updatedLead]; [done|]. destruct (exec_err e); [done|].
    by apply update_other_user.
Qed.

Lemma other_users_board_unchanged_witness :
  getCrmHandler Scenario.start_env 2
    (snd (updateCrmLeadHandler Scenario.start_env 1 "lead-0" (Bound Scenario.edited)
            Scenario.crm)) =
  getCrmHandler Scenario.start_env 2 Scenario.crm.
Proof.
  apply (other_users_board_unchanged Scenario.start_env Scenario.start_env 1 2
           Scenario.crm).
  discriminate.
Defined.

(** * Updates of an entry that is not there, and updates in a row *)

Lemma update_nothing (f : CrmLeadsRow.t → CrmLeadsRow.t) userID leadID db :
  Sql.crm_key_taken userID leadID db = false →
  mkDB (searches db) (leads db)
    ((λ r, if Sql.crm_where userID leadID r then f r else r) <$> crm_leads db) = db.
Proof.
  intros Hfree. destruct db as [s l c]. simpl. f_equal.
  rewrite <- (list_fmap_id c) at 2. apply list_fmap_ext.
  intros i r Hr%list_elem_of_lookup_2.
  destruct (Sql.crm_where userID leadID r) eqn:Hwhere; [|done].
  assert (Sql.crm_key_taken userID leadID (mkDB s l c) = true) as Htaken.
  { apply crm_key_taken_entry. exists r. split; [done|]. by apply crm_where_entry. }
  by rewrite Htaken in Hfree.
Qed.

(** X14.  A move or a field update for a lead that the caller has no
    entry for changes nothing and is not reported: the store runs an
    UPDATE that matches no row, and the answer is the same 200 as for
    an entry that exists. *)
Theorem update_of_missing_entry_is_silent e userID db :
  exec_err e = None →
  (∀ input, Sql.crm_key_taken userID (LeadID input) db = false →
     updateCrmStateHandler e userID (Bound input) db =
     (mkResponse StatusOK (MessageBody "CRM state updated"), db)) ∧
  (∀ leadID updatedLead, Sql.crm_key_taken userID leadID db = false →
     updateCrmLeadHandler e userID leadID (Bound updatedLead) db =
     (mkResponse StatusOK (CrmLeadBody updatedLead), db)).
Proof.
  intros Hexec. unfold updateCrmStateHandler, updateCrmLeadHandler. rewrite Hexec.
  split.
  - intros input Hfree. f_equal. by apply update_nothing.
  - intros leadID updatedLead Hfree. f_equal. by apply update_nothing.
Qed.

Lemma update_of_missing_entry_is_silent_witness :
  updateCrmStateHandler Scenario.start_env 3 (Bound (mkStateInput "lead-0" "contacted"))
    Scenario.crm =
  (mkResponse StatusOK (MessageBody "CRM state updated"), Scenario.crm).
Proof.
  apply (update_of_missing_entry_is_silent Scenario.start_env 3 Scenario.crm);
    reflexivity.
Defined.

(** X15.  A move and a field update do not get in each other's way:
    run in either order, by any users and for any leads, they leave the
    same table, whether the store runs each of them or not. *)
Theorem move_and_edit_commute e1 e2 user1 user2 input leadID updatedLead db :
  snd (updateCrmStateHandler e1 user1 (Bound input)
         (snd (updateCrmLeadHandler e2 user2 leadID (Bound updatedLead) db))) =
  snd (updateCrmLeadHandler e2 user2 leadID (Bound updatedLead)
         (snd (updateCrmStateHandler e1 user1 (Bound input) db))).
Proof.
  unfold updateCrmStateHandler, updateCrmLeadHandler.
  destruct (exec_err e1), (exec_err e2); try done. simpl.
  unfold Sql.update_crm_column, Sql.update_crm_details. simpl. f_equal.
  rewrite <- !list_fmap_compose. apply list_fmap_ext. intros i r _. simpl.
  destruct (Sql.crm_where user1 (LeadID input) r) eqn:H1,
    (Sql.crm_where user2 leadID r) eqn:H2; simpl;
    unfold Sql.crm_where in *; simpl; rewrite ?H1, ?H2; done.
Qed.

(** X16.  Of two moves of the same entry that the store runs, the
    later one decides the column, and likewise of two field updates
    the later one decides notes, call count and callback date: the
    table is the one that the later update alone would have left. *)
Theorem later_update_wins e1 e2 userID db :
  exec_err e2 = None →
  (∀ leadID column1 column2,
     snd (updateCrmStateHandler e2 userID (Bound (mkStateInput leadID column2))
            (snd (updateCrmStateHandler e1 userID (Bound (mkStateInput leadID column1))
                    db))) =
     snd (updateCrmStateHandler e2 userID (Bound (mkStateInput leadID column2)) db)) ∧
  (∀ leadID updated1 updated2,
     snd (updateCrmLeadHandler e2 userID leadID (Bound updated2)
            (snd (updateCrmLeadHandler e1 userID leadID (Bound updated1) db))) =
     snd (updateCrmLeadHandler e2 userID leadID (Bound updated2) db)).
Proof.
  intros Hexec. unfold updateCrmStateHandler, updateCrmLeadHandler. rewrite Hexec.
  split.
  - intros leadID column1 column2. destruct (exec_err e1); [done|]. simpl.
    unfold Sql.update_crm_column. simpl. f_equal.
    rewrite <- list_fmap_compose. apply list_fmap_ext. intros i r _. simpl.
    destruct (Sql.crm_where userID leadID r) eqn:Hwhere; simpl;
      unfold Sql.crm_where in *; simpl; by rewrite Hwhere.
  - intros leadID updated1 updated2. destruct (exec_err e1); [done|]. simpl.
    unfold Sql.update_crm_details. simpl. f_equal.
    rewrite <- list_fmap_compose. apply list_fmap_ext. intros i r _. simpl.
    destruct (Sql.crm_where userID leadID r) eqn:Hwhere; simpl;
      unfold Sql.crm_where in *; simpl; by rewrite Hwhere.
Qed.

Lemma later_update_wins_witness :
  snd (updateCrmStateHandler Scenario.start_env 1 (Bound (mkStateInput "lead-0" "contacted"))
         (snd (updateCrmStateHandler Scenario.start_env 1
                 (Bound (mkStateInput "lead-0" "tobe-called")) Scenario.crm))) =
  Scenario.crm.
Proof.
  rewrite (proj1 (later_update_wins Scenario.start_env Scenario.start_env 1 Scenario.crm
                    eq_refl)).
  reflexivity.
Defined.

(** X17.  Of two status updates of a job that the store runs, the
    later one decides: the tables are those that the later update
    alone would have left, so setting the same status twice is the same
    as setting it once. *)
Theorem later_status_wins e1 e2 searchID status1 status2 db :
  status_err e2 = None →
  updateSearchStatus e2 searchID status2 (updateSearchStatus e1 searchID status1 db) =
  updateSearchStatus e2 searchID status2 db.
Proof.
  intros Herr. unfold updateSearchStatus. rewrite Herr.
  destruct (status_err e1); [done|].
  unfold Sql.update_search_status. simpl. f_equal.
  rewrite <- list_fmap_compose. apply list_fmap_ext. intros i r _. simpl.
  destruct (decide (SearchesRow.id r = searchID)) as [Hid|Hid].
  - rewrite (bool_decide_eq_true_2 _ Hid). simpl. by rewrite bool_decide_eq_true_2.
  - rewrite (bool_decide_eq_false_2 _ Hid). by rewrite bool_decide_eq_false_2.
Qed.

Lemma later_status_wins_witness :
  updateSearchStatus Scenario.start_env Scenario.job "Failed"
    (updateSearchStatus Scenario.start_env Scenario.job "Failed" Scenario.started) =
  Scenario.failed.
Proof.
  rewrite (later_status_wins Scenario.start_env Scenario.start_env Scenario.job
             "Failed" "Failed" Scenario.started eq_refl).
  reflexivity.
Defined.

(** * Accounts *)

Section Accounts.
Context `{Crypto}.

Lemma validate_register_ok input :
  RegisterInput.Name input ≠ "" → RegisterInput.Email input ≠ "" →
  RegisterInput.Password input ≠ "" →
  validate_required "RegisterInput."
    [("Name", RegisterInput.Name input); ("Email", RegisterInput.Email input);
     ("Password", RegisterInput.Password input)] = None.
Proof.
  intros Hn He Hp. unfold validate_required.
  by rewrite !filter_cons, !decide_False, filter_nil.
Qed.

Lemma validate_register_inv input :
  validate_required "RegisterInput."
    [("Name", RegisterInput.Name input); ("Email", RegisterInput.Email input);
     ("Password", RegisterInput.Password input)] = None →
  RegisterInput.Name input ≠ "" ∧ RegisterInput.Email input ≠ "" ∧
  RegisterInput.Password input ≠ "".
Proof.
  unfold validate_required. rewrite !filter_cons, filter_nil. simpl.
  repeat case_decide; done.
Qed.

Lemma validate_login_ok input :
  LoginInput.Email input ≠ "" → LoginInput.Password input ≠ "" →
  validate_required "LoginInput."
    [("Email", LoginInput.Email input); ("Password", LoginInput.Password input)] = None.
Proof.
  intros He Hp. unfold validate_required.
  by rewrite !filter_cons, !decide_False, filter_nil.
Qed.

(** What a registration that is answered 201 has done. *)
Lemma registerHandler_created e salt input users session users' :
  registerHandler e salt (Bound input) users = (ReplyOK StatusCreated session, users') →
  ∃ hashedPassword,
    (RegisterInput.Name input ≠ "" ∧ RegisterInput.Email input ≠ "" ∧
     RegisterInput.Password input ≠ "") ∧
    hashPassword salt (RegisterInput.Password input) = Some hashedPassword ∧
    (RegisterInput.Email input ∉ UsersRow.email <$> users) ∧
    users' = users ++ [UsersRow.mk (next_user_id users) (RegisterInput.Name input)
                         (RegisterInput.Email input) hashedPassword] ∧
    session = mkSession (generateJWT (now e) (next_user_id users)) (next_user_id users)
                (RegisterInput.Name input) (RegisterInput.Email input).
Proof.
  unfold registerHandler.
  destruct (validate_required _ _) eqn:Hvalid; [done|].
  apply validate_register_inv in Hvalid.
  destruct (hashPassword salt _) as [hashedPassword|]; [|done].
  destruct (exec_err e).
  { by destruct (Contains _ _). }
  unfold insert_user. case_bool_decide; [by destruct (Contains _ _)|].
  case_bool_decide as Hemail; [by destruct (Contains _ _)|].
  intros [= <- <-]. by exists hashedPassword.
Qed.

Lemma registerHandler_users e salt input users :
  snd (registerHandler e salt input users) = users ∨
  ∃ input' hashedPassword,
    input = Bound input' ∧
    (RegisterInput.Email input' ∉ UsersRow.email <$> users) ∧
    snd (registerHandler e salt input users) =
    users ++ [UsersRow.mk (next_user_id users) (RegisterInput.Name input')
                (RegisterInput.Email input') hashedPassword].
Proof.
  unfold registerHandler. destruct input as [msg|input]; [by left|].
  destruct (validate_required _ _); [by left|].
  destruct (hashPassword salt _) as [hashedPassword|]; [|by left].
  destruct (exec_err e); [destruct (Contains _ _); by left|].
  unfold insert_user. case_bool_decide; [destruct (Contains _ _); by left|].
  case_bool_decide as Hemail; [destruct (Contains _ _); by left|].
  right. by exists input, hashedPassword.
Qed.

Lemma next_user_id_above users id :
  id ∈ UsersRow.id <$> users → (id < next_user_id users)%Z.
Proof.
  unfold next_user_id. generalize (UsersRow.id <$> users). clear users.
  intros ids. induction ids as [|id' ids IH]; simpl.
  - by intros ?%elem_of_nil.
  - intros [->|Hin]%elem_of_cons; [lia|]. specialize (IH Hin). lia.
Qed.

(** X18.  Registration keeps the accounts apart: whatever the request
    and whatever the store and the hashing do, the accounts that exist
    stay as they are, at most one account is appended, and if emails
    and ids were unique before they are unique after. *)
Theorem accounts_stay_unique e salt input users :
  (∃ new, snd (registerHandler e salt input users) = users ++ new ∧ length new ≤ 1) ∧
  (NoDup (UsersRow.email <$> users) →
   NoDup (UsersRow.email <$> snd (registerHandler e salt input users))) ∧
  (NoDup (UsersRow.id <$> users) →
   NoDup (UsersRow.id <$> snd (registerHandler e salt input users))).
Proof.
  destruct (registerHandler_users e salt input users)
    as [->|(input' & hashedPassword & -> & Hemail & ->)].
  - split_and!; [|done|done]. exists []. rewrite app_nil_r. split; [done|simpl; lia].
  - split_and!.
    + eexists. split; [done|]. simpl. lia.
    + intros Hnd. rewrite fmap_app. apply NoDup_app.
      split_and!; [done| |apply NoDup_singleton].
      by intros x Hx ->%list_elem_of_singleton.
    + intros Hnd. rewrite fmap_app. apply NoDup_app.
      split_and!; [done| |apply NoDup_singleton].
      intros x Hx ->%list_elem_of_singleton. simpl in Hx.
      apply next_user_id_above in Hx. lia.
Qed.

(** X19.  A registration with an email that an account already has,
    with all three fields present, is answered 409 "User with this
    email already exists" once the password is hashed and the store
    runs the insert, and no account is added or changed. *)
Theorem register_taken_email_is_conflict e salt input users hashedPassword :
  RegisterInput.Name input ≠ "" → RegisterInput.Email input ≠ "" →
  RegisterInput.Password input ≠ "" →
  hashPassword salt (RegisterInput.Password input) = Some hashedPassword →
  exec_err e = None →
  (next_user_id users ≤ MaxInt64)%Z →
  RegisterInput.Email input ∈ UsersRow.email <$> users →
  registerHandler e salt (Bound input) users =
  (ReplyError StatusConflict "User with this email already exists", users).
Proof.
  intros Hn He Hp Hhash Hexec Hroom Htaken. unfold registerHandler.
  rewrite validate_register_ok, Hhash, Hexec by done.
  unfold insert_user.
  rewrite bool_decide_eq_false_2 by lia.
  by rewrite bool_decide_eq_true_2.
Qed.

(** X20.  Register, then log in.  Provided the hash library accepts
    the password it hashed, a user whose registration was answered 201
    can log in with the same email and password as soon as the store
    answers the query, and is given the id, name and email of the
    account that the registration created. *)
Theorem registered_user_can_log_in e e' salt input users session users' :
  (∀ password cost salt' hash,
     GenerateFromPassword password cost salt' = Some hash →
     CompareHashAndPassword hash password = true) →
  registerHandler e salt (Bound input) users = (ReplyOK StatusCreated session, users') →
  query_err e' 0 = None →
  loginHandler e'
    (Bound (LoginInput.mk (RegisterInput.Email input) (RegisterInput.Password input)))
    users' =
  ReplyOK StatusOK
    (mkSession (generateJWT (now e') (session_id session)) (session_id session)
       (RegisterInput.Name input) (RegisterInput.Email input)).
Proof.
  intros Hlib Hregister Hquery.
  apply registerHandler_created in Hregister
    as (hashedPassword & (Hn & He & Hp) & Hhash & Hnew & -> & ->).
  unfold loginHandler. rewrite validate_login_ok, Hquery by done. simpl.
  unfold select_user. rewrite filter_app, filter_cons_True, filter_nil by done.
  rewrite (filter_none _ users); simpl.
  - unfold checkPasswordHash. simpl. by rewrite (Hlib _ _ _ _ Hhash).
  - intros r Hr Hemail. apply Hnew. rewrite <- Hemail. by apply list_elem_of_fmap_2.
Qed.

(** X21.  A login that fails for a reason other than its form gives
    nothing away: an email that no account has, a password that the
    hash library rejects and a query that the store does not answer
    all get the same 401 "Invalid credentials". *)
Theorem login_failures_look_alike e input users :
  LoginInput.Email input ≠ "" → LoginInput.Password input ≠ "" →
  query_err e 0 ≠ None ∨
  (LoginInput.Email input ∉ UsersRow.email <$> users) ∨
  (∃ user, select_user (LoginInput.Email input) users = Some user ∧
           checkPasswordHash (LoginInput.Password input) (UsersRow.password_hash user)
           = false) →
  loginHandler e (Bound input) users = invalid_credentials.
Proof.
  intros He Hp Hwhy. unfold loginHandler. rewrite validate_login_ok by done.
  destruct Hwhy as [Hquery|[Hunknown|(user & Huser & Hcheck)]].
  - by destruct (query_err e 0).
  - destruct (query_err e 0); [done|]. unfold select_user.
    rewrite filter_none; [done|].
    intros r Hr Hemail. apply Hunknown. rewrite <- Hemail. by apply list_elem_of_fmap_2.
  - destruct (query_err e 0); [done|]. by rewrite Huser, Hcheck.
Qed.

End Accounts.

Lemma register_taken_email_is_conflict_witness :
  @registerHandler Example.crypto Scenario.start_env "salt" (Bound Example.alice)
    [Example.alice_row] =
  (ReplyError StatusConflict "User with this email already exists", [Example.alice_row]).
Proof.
  apply (@register_taken_email_is_conflict Example.crypto Scenario.start_env "salt"
           Example.alice [Example.alice_row] "hash of pw123").
  - discriminate.
  - discriminate.
  - discriminate.
  - reflexivity.
  - reflexivity.
  - vm_compute. discriminate.
  - by left.
Defined.

Lemma registered_user_can_log_in_witness :
  @loginHandler Example.crypto Scenario.start_env (Bound Example.alice_login)
    [Example.alice_row] =
  ReplyOK StatusOK (mkSession "token" 1 "alice" "alice@x.com").
Proof.
  apply (@registered_user_can_log_in Example.crypto Scenario.start_env Scenario.start_env
           "salt" Example.alice [] (mkSession "token" 1 "alice" "alice@x.com")
           [Example.alice_row]).
  - intros password cost salt' hash [= <-]. by apply bool_decide_eq_true_2.
  - reflexivity.
  - reflexivity.
Defined.

Lemma login_failures_look_alike_witness :
  @loginHandler Example.crypto Scenario.start_env
    (Bound (LoginInput.mk "bob@x.com" "pw123")) [Example.alice_row] =
  invalid_credentials ∧
  @loginHandler Example.crypto Scenario.start_env
    (Bound (LoginInput.mk "alice@x.com" "guess")) [Example.alice_row] =
  invalid_credentials.
Proof.
  split.
  - apply (@login_failures_look_alike Example.crypto); [discriminate|discriminate|].
    right. left. simpl.
    intros [Heq|Hnil]%elem_of_cons; [discriminate Heq|by apply elem_of_nil in Hnil].
  - apply (@login_failures_look_alike Example.crypto); [discriminate|discriminate|].
    right. right. exists Example.alice_row. split; reflexivity.
Defined.

(** * The credential check *)

Lemma substring_all s : String.substring 0 (String.length s) s = s.
Proof. induction s as [|c s IH]; simpl; [done|]. by rewrite IH. Qed.

Lemma prefix_empty s : String.prefix "" s = true.
Proof. by destruct s. Qed.

Lemma TrimPrefix_bearer token : TrimPrefix ("Bearer " +:+ token) "Bearer " = token.
Proof.
  unfold TrimPrefix. simpl. change ("" +:+ token) with token.
  rewrite prefix_empty, Nat.sub_0_r. apply substring_all.
Qed.

(** X22.  [authMiddleware] takes a token with or without the
    "Bearer " in front of it: a header that is the bare token is
    treated exactly like the header "Bearer " followed by that token
    (for a token that does not itself begin with "Bearer "). *)
Theorem bearer_prefix_is_optional `{Crypto} now token :
  token ≠ "" → String.prefix "Bearer " token = false →
  authMiddleware now ("Bearer " +:+ token) = authMiddleware now token.
Proof.
  intros Htoken Hbare. unfold authMiddleware.
  rewrite (bool_decide_eq_false_2 (token = "")) by done.
  rewrite bool_decide_eq_false_2 by done.
  rewrite TrimPrefix_bearer.
  replace (TrimPrefix token "Bearer ") with token; [done|].
  unfold TrimPrefix. by rewrite Hbare.
Qed.

Lemma bearer_prefix_is_optional_witness :
  @authMiddleware Example.crypto 0%Z "Bearer token" =
  @authMiddleware Example.crypto 0%Z "token".
Proof.
  apply (@bearer_prefix_is_optional Example.crypto 0%Z "token");
    [discriminate|reflexivity].
Defined.

(** * Who is given the leads, and how many *)

(** X23.  [getLeadsForSearchHandler] gives leads to the owner of the
    job and to nobody else: whenever it answers 200 with a list, the
    caller owns the job, and every lead of the list is read from a Lead
    row of that very job. *)
Theorem leads_go_to_the_owner_only e userID searchID db ls :
  getLeadsForSearchHandler e userID searchID db = mkResponse StatusOK (LeadsBody ls) →
  Sql.select_search_owner searchID db = Some userID ∧
  ∀ l, l ∈ ls →
    Lead.SearchID l = searchID ∧
    ∃ row, row ∈ leads db ∧ LeadsRow.search_id row = searchID ∧ scan_lead row = Some l.
Proof.
  unfold getLeadsForSearchHandler.
  destruct (query_err e 0); [done|].
  destruct (Sql.select_search_owner searchID db) as [ownerID|]; [|done].
  case_bool_decide as Howner; [done|].
  destruct (query_err e 1); [done|]. intros [= <-].
  split; [f_equal; by destruct (decide (ownerID = userID))|].
  intros l (row & [Hid Hrow]%list_elem_of_filter & Hscan)%list_elem_of_omap.
  split; [|by exists row].
  unfold scan_lead in Hscan. destruct (LeadsRow.company_name row); [|done].
  by injection Hscan as <-.
Qed.

Lemma leads_go_to_the_owner_only_witness :
  Sql.select_search_owner Scenario.job Scenario.completed = Some 1%Z ∧
  ∀ l, l ∈ [Scenario.acme_lead] →
    Lead.SearchID l = Scenario.job ∧
    ∃ row, row ∈ leads Scenario.completed ∧ LeadsRow.search_id row = Scenario.job ∧
           scan_lead row = Some l.
Proof.
  apply (leads_go_to_the_owner_only Scenario.start_env 1 Scenario.job Scenario.completed
           [Scenario.acme_lead]).
  reflexivity.
Defined.








